(** * ynab_checker: projection, risk and cover-transfer engine

    A shallow embedding of [ynab_checker.py].  Amounts are Python integers
    (unbounded), modelled as [Z].  Dates are [datetime.date] values: a year,
    a month and a day, compared lexicographically, built only through the
    range-checking constructor, and moved by whole days through the
    proleptic Gregorian ordinal.  Operations that raise in Python return in
    the exception monad [exc].  [date.today()] is a parameter [today] of
    every function that reads it. *)

From Stdlib Require Import ZArith List String Bool Lia Sorted Permutation.
Import ListNotations.
Local Open Scope Z_scope.

(** ** Exceptions *)

Inductive error : Type :=
| ValueError
| OverflowError.

(** The outcome of a call: a value, a raised exception, or the loop
    budget of the model running out (shown below never to happen). *)
Inductive exc (A : Type) : Type :=
| Return (x : A)
| Raise (e : error)
| OutOfFuel.

Arguments Return {A} x.
Arguments Raise {A} e.
Arguments OutOfFuel {A}.

Definition bind {A B : Type} (m : exc A) (k : A -> exc B) : exc B :=
  match m with
  | Return x => k x
  | Raise e => Raise e
  | OutOfFuel => OutOfFuel
  end.

Notation "x <- m ;; k" := (bind m (fun x => k))
  (at level 61, m at next level, right associativity).

(** ** The calendar: [datetime.date], [timedelta] and [calendar.monthrange] *)

Module Calendar.

Record date : Type := mkDate { year : Z; month : Z; day : Z }.

Definition MINYEAR : Z := 1.
Definition MAXYEAR : Z := 9999.
Definition MAXORDINAL : Z := 3652059.

(** [calendar.isleap] and [datetime._is_leap]. *)
Definition is_leap (y : Z) : bool :=
  (y mod 4 =? 0) && (negb (y mod 100 =? 0) || (y mod 400 =? 0)).

Definition DAYS_IN_MONTH (m : Z) : Z :=
  match m with
  | 1 => 31 | 2 => 28 | 3 => 31 | 4 => 30 | 5 => 31 | 6 => 30
  | 7 => 31 | 8 => 31 | 9 => 30 | 10 => 31 | 11 => 30 | 12 => 31
  | _ => -1
  end.

Definition DAYS_BEFORE_MONTH (m : Z) : Z :=
  match m with
  | 1 => 0 | 2 => 31 | 3 => 59 | 4 => 90 | 5 => 120 | 6 => 151
  | 7 => 181 | 8 => 212 | 9 => 243 | 10 => 273 | 11 => 304 | 12 => 334
  | _ => -1
  end.

(** [calendar.monthrange(y, m)[1]], which is also [datetime._days_in_month]. *)
Definition days_in_month (y m : Z) : Z :=
  if (m =? 2) && is_leap y then 29 else DAYS_IN_MONTH m.

Definition days_before_year (y : Z) : Z :=
  let y1 := y - 1 in y1 * 365 + y1 / 4 - y1 / 100 + y1 / 400.

Definition days_before_month (y m : Z) : Z :=
  DAYS_BEFORE_MONTH m + (if (2 <? m) && is_leap y then 1 else 0).

(** The field check of the [date] constructor. *)
Definition check_date_fields (y m d : Z) : bool :=
  (MINYEAR <=? y) && (y <=? MAXYEAR) && (1 <=? m) && (m <=? 12)
  && (1 <=? d) && (d <=? days_in_month y m).

Definition valid_date (d : date) : bool :=
  check_date_fields (year d) (month d) (day d).

(** [date(y, m, d)]: a [ValueError] outside the supported range. *)
Definition new_date (y m d : Z) : exc date :=
  if check_date_fields y m d then Return (mkDate y m d) else Raise ValueError.

(** [date.toordinal]. *)
Definition toordinal (d : date) : Z :=
  days_before_year (year d) + days_before_month (year d) (month d) + day d.

(** [datetime._ord2ymd]. *)
Definition ord2ymd (n0 : Z) : Z * Z * Z :=
  let n := n0 - 1 in
  let n400 := n / 146097 in
  let n := n mod 146097 in
  let y := n400 * 400 + 1 in
  let n100 := n / 36524 in
  let n := n mod 36524 in
  let n4 := n / 1461 in
  let n := n mod 1461 in
  let n1 := n / 365 in
  let n := n mod 365 in
  let y := y + n100 * 100 + n4 * 4 + n1 in
  if (n1 =? 4) || (n100 =? 4) then (y - 1, 12, 31)
  else
    let leapyear := (n1 =? 3) && (negb (n4 =? 24) || (n100 =? 3)) in
    let m := Z.shiftr (n + 50) 5 in
    let preceding :=
      DAYS_BEFORE_MONTH m + (if (2 <? m) && leapyear then 1 else 0) in
    if n <? preceding then
      let m' := m - 1 in
      let preceding' :=
        preceding
        - (DAYS_IN_MONTH m' + (if (m' =? 2) && leapyear then 1 else 0)) in
      (y, m', n - preceding' + 1)
    else (y, m, n - preceding + 1).

(** [date.fromordinal]. *)
Definition fromordinal (n : Z) : exc date :=
  let '(y, m, d) := ord2ymd n in new_date y m d.

(** [d + timedelta(days=k)].  A [timedelta] beyond 999999999 days already
    raises [OverflowError]; so does every sum leaving the ordinal range. *)
Definition add_days (d : date) (k : Z) : exc date :=
  let o := toordinal d + k in
  if (0 <? o) && (o <=? MAXORDINAL) then fromordinal o
  else Raise OverflowError.

(** Comparison of dates is comparison of the triples (year, month, day). *)
Definition date_ltb (a b : date) : bool :=
  (year a <? year b)
  || ((year a =? year b)
      && ((month a <? month b)
          || ((month a =? month b) && (day a <? day b)))).

Definition date_leb (a b : date) : bool := negb (date_ltb b a).

Definition date_eqb (a b : date) : bool :=
  (year a =? year b) && (month a =? month b) && (day a =? day b).

(** A linear index that grows with the order on well-formed dates; it
    bounds the number of strictly increasing dates below a cutoff. *)
Definition date_index (d : date) : Z :=
  (year d * 12 + (month d - 1)) * 31 + (day d - 1).

End Calendar.

Import Calendar.


(** ** Python containers *)

Section StableSort.
Context {A : Type}.
(** [ltb x y] is the [<] of the sort keys of [x] and [y]. *)
Variable ltb : A -> A -> bool.

(** [list.sort] is stable: an element goes in front of the first element
    of the already sorted tail that is not smaller than it. *)
Fixpoint insert_sorted (x : A) (l : list A) : list A :=
  match l with
  | [] => [x]
  | y :: l' => if ltb y x then y :: insert_sorted x l' else x :: y :: l'
  end.

Definition stable_sort (l : list A) : list A :=
  fold_right insert_sorted [] l.

(** [x] may stand before [y] in sorted order: [y] is not smaller. *)
Definition not_after (x y : A) : Prop := ltb y x = false.
End StableSort.

Section Dict.
Context {V : Type}.

(** A [dict] with string keys, in insertion order. *)
Definition dict : Type := list (string * V).

Fixpoint dict_get (k : string) (m : dict) : option V :=
  match m with
  | [] => None
  | (k', v) :: m' => if String.eqb k' k then Some v else dict_get k m'
  end.
End Dict.

Arguments dict V : clear implicits.

Definition sum_Z (l : list Z) : Z := fold_right Z.add 0 l.

(** [l[i] = v] on a list. *)
Fixpoint list_set (i : nat) (v : Z) (l : list Z) : list Z :=
  match l, i with
  | [], _ => []
  | _ :: l', O => v :: l'
  | x :: l', S i' => x :: list_set i' v l'
  end.

(** One dated cash flow: [(when, amount)]. *)
Definition occurrence : Type := (date * Z)%type.

(** ** Projection calculator *)

Module Projection.

(** The [for] loop of [calc_projection], from a running balance and the
    drop date recorded so far. *)
Fixpoint projection_loop (acct_occurrences : list occurrence)
    (projected : Z) (drop_date : option date) (cutoff : date)
    : Z * option date :=
  match acct_occurrences with
  | [] => (projected, drop_date)
  | (when, amount) :: rest =>
      if date_ltb cutoff when then (projected, drop_date)
      else
        let projected := projected + amount in
        let drop_date :=
          match drop_date with
          | None => if projected <? 0 then Some when else None
          | Some _ => drop_date
          end in
        projection_loop rest projected drop_date cutoff
  end.

Definition calc_projection (acct_occurrences : list occurrence)
    (balance : Z) (cutoff : date) : Z * option date :=
  projection_loop acct_occurrences balance None cutoff.

(** The projection as the specification words it: the occurrences dated
    no later than the cutoff ... *)
Definition due (cutoff : date) (occs : list occurrence) : list occurrence :=
  filter (fun o => date_leb (fst o) cutoff) occs.

(** ... are accumulated into a running balance ... *)
Definition accumulated (balance : Z) (occs : list occurrence) : Z :=
  balance + sum_Z (map snd occs).

(** ... and the drop date is the date of the first of them after which
    the running balance is strictly negative. *)
Fixpoint first_drop (balance : Z) (occs : list occurrence) : option date :=
  match occs with
  | [] => None
  | (when, amount) :: rest =>
      if balance + amount <? 0 then Some when
      else first_drop (balance + amount) rest
  end.

(** Ascending by date, equal dates allowed. *)
Definition date_ascending (occs : list occurrence) : Prop :=
  Sorted (fun a b => date_leb (fst a) (fst b) = true) occs.

(** Ascending by date, each date later than the one before. *)
Definition date_strictly_ascending (occs : list occurrence) : Prop :=
  Sorted (fun a b => date_ltb (fst a) (fst b) = true) occs.

End Projection.

(** ** Occurrence generator *)

Module Schedule.

Definition add_months (src : date) (months : Z) : exc date :=
  let month_index := month src - 1 + months in
  let y := year src + month_index / 12 in
  let m := month_index mod 12 + 1 in
  let d := Z.min (day src) (days_in_month y m) in
  new_date y m d.

Definition advance_date (current : date) (frequency : string)
    : exc (option date) :=
  if String.eqb frequency "never" then Return None
  else if String.eqb frequency "daily" then
    d <- add_days current 1 ;; Return (Some d)
  else if String.eqb frequency "weekly" then
    d <- add_days current 7 ;; Return (Some d)
  else if String.eqb frequency "everyOtherWeek" then
    d <- add_days current 14 ;; Return (Some d)
  else if String.eqb frequency "every4Weeks" then
    d <- add_days current 28 ;; Return (Some d)
  else if String.eqb frequency "twiceAMonth" then
    d <- add_days current 15 ;; Return (Some d)
  else if String.eqb frequency "monthly" then
    d <- add_months current 1 ;; Return (Some d)
  else if String.eqb frequency "everyOtherMonth" then
    d <- add_months current 2 ;; Return (Some d)
  else if String.eqb frequency "every3Months" then
    d <- add_months current 3 ;; Return (Some d)
  else if String.eqb frequency "every4Months" then
    d <- add_months current 4 ;; Return (Some d)
  else if String.eqb frequency "twiceAYear" then
    d <- add_months current 6 ;; Return (Some d)
  else if String.eqb frequency "yearly" then
    d <- add_months current 12 ;; Return (Some d)
  else if String.eqb frequency "everyOtherYear" then
    d <- add_months current 24 ;; Return (Some d)
  else Return None.


(** The month-based frequencies, each with its month count. *)
Definition month_frequencies : list (string * Z) :=
  [ ("monthly", 1); ("everyOtherMonth", 2); ("every3Months", 3);
    ("every4Months", 4); ("twiceAYear", 6); ("yearly", 12);
    ("everyOtherYear", 24) ]%string.

(** The target month of [add_months]: its year and its month. *)
Definition target_year (src : date) (months : Z) : Z :=
  year src + (month src - 1 + months) / 12.

Definition target_month (src : date) (months : Z) : Z :=
  (month src - 1 + months) mod 12 + 1.

(** How a generator stopped: its body returned, or an exception left it,
    or the budget of the model ran out. *)
Inductive finish : Type :=
| Exhausted
| Failed (e : error)
| Unfinished.

Section Generator.
(** The rule called at [next_date = advance_date(current, frequency)];
    the loop is written over it so that its termination can be stated
    for every rule a frequency may stand for. *)
Variable advance : date -> string -> exc (option date).

(** The [while] loop of [occurrences_within_window]: the dates yielded,
    in order, and how the generator stopped. *)
Fixpoint generate (fuel : nat) (today cutoff : date) (frequency : string)
    (current : date) : list date * finish :=
  match fuel with
  | O => ([], Unfinished)
  | S fuel' =>
      if date_leb current cutoff then
        let yielded := if date_leb today current then [current] else [] in
        match advance current frequency with
        | Raise e => (yielded, Failed e)
        | OutOfFuel => (yielded, Unfinished)
        | Return None => (yielded, Exhausted)
        | Return (Some next_date) =>
            if date_leb next_date current then (yielded, Exhausted)
            else
              let '(later, fin) :=
                generate fuel' today cutoff frequency next_date in
              (yielded ++ later, fin)
        end
      else ([], Exhausted)
  end.

(** Strictly increasing dates up to [cutoff] number at most the distance
    of their linear indices, plus the first one; the last test of the
    loop condition takes one more unit. *)
Definition budget (start cutoff : date) : nat :=
  S (S (Z.to_nat (date_index cutoff - date_index start))).

Definition occurrences_with (today start : date) (frequency : string)
    (max_days : Z) : list date * finish :=
  match add_days today max_days with
  | Return cutoff =>
      generate (budget start cutoff) today cutoff frequency start
  | Raise e => ([], Failed e)
  | OutOfFuel => ([], Unfinished)
  end.
End Generator.

Definition occurrences_within_window : date -> date -> string -> Z
    -> list date * finish :=
  occurrences_with advance_date.

(** What the loop needs of an advance rule: it answers, and with a
    well-formed date when it answers with one. *)
Definition advance_rule (advance : date -> string -> exc (option date))
    : Prop :=
  forall current f,
    advance current f <> OutOfFuel
    /\ forall d, advance current f = Return (Some d) -> valid_date d = true.

(** The generator ends by itself, and what it has yielded by then lies in
    the window and is strictly ascending. *)
Definition ends_in_window
    (gen : date -> date -> string -> Z -> list date * finish)
    (today start : date) (f : string) (max_days : Z) : Prop :=
  exists ds fin,
    gen today start f max_days = (ds, fin)
    /\ fin <> Unfinished
    /\ (forall d, In d ds ->
          exists cutoff,
            add_days today max_days = Return cutoff
            /\ date_leb today d = true /\ date_leb d cutoff = true)
    /\ StronglySorted (fun a b => date_ltb a b = true) ds.

(** An occurrence dated within [today, today+horizon]. *)
Definition within_window (today : date) (max_days : Z) (o : occurrence)
    : Prop :=
  exists cutoff,
    add_days today max_days = Return cutoff
    /\ date_leb today (fst o) = true /\ date_leb (fst o) cutoff = true.

(** A mapping all of whose occurrences are dated within the window. *)
Definition all_within_window (today : date) (max_days : Z)
    (m : dict (list occurrence)) : Prop :=
  forall k l, In (k, l) m -> Forall (within_window today max_days) l.

(** A scheduled transaction as the API delivers it; [None] is an absent
    key.  [date_next] holds the year, month and day fields read by
    [date.fromisoformat]. *)
Record scheduled_txn : Type := mkTxn {
  account_id : option string;
  amount : option Z;
  scheduled_subtransactions : list (option Z);
  date_next : Z * Z * Z;
  frequency : option string
}.

Definition get_int (v : option Z) : Z :=
  match v with Some z => z | None => 0 end.

(** [occurrences.setdefault(account_id, []).append(item)]. *)
Fixpoint setdefault_append (k : string) (item : occurrence)
    (occurrences : dict (list occurrence)) : dict (list occurrence) :=
  match occurrences with
  | [] => [(k, [item])]
  | (k', l) :: rest =>
      if String.eqb k' k then (k', l ++ [item]) :: rest
      else (k', l) :: setdefault_append k item rest
  end.

(** The inner [for] loop of [build_occurrences] over the yielded dates. *)
Fixpoint append_occurrences (today : date) (k : string) (amt : Z)
    (yielded : list date) (occurrences : dict (list occurrence))
    : dict (list occurrence) :=
  match yielded with
  | [] => occurrences
  | occ :: rest =>
      if date_ltb occ today then
        append_occurrences today k amt rest occurrences
      else
        append_occurrences today k amt rest
          (setdefault_append k (occ, amt) occurrences)
  end.

Definition txn_amount (txn : scheduled_txn) : Z :=
  match scheduled_subtransactions txn with
  | [] => get_int (amount txn)
  | subs => sum_Z (map get_int subs)
  end.

(** The first [for] loop of [build_occurrences]. *)
Fixpoint collect (today : date) (scheduled : list scheduled_txn)
    (max_window : Z) (occurrences : dict (list occurrence))
    : exc (dict (list occurrence)) :=
  match scheduled with
  | [] => Return occurrences
  | txn :: rest =>
      match account_id txn with
      | None => collect today rest max_window occurrences
      | Some k =>
          if String.eqb k "" then collect today rest max_window occurrences
          else
            let amt := txn_amount txn in
            if amt =? 0 then collect today rest max_window occurrences
            else
              let '(y, m, d) := date_next txn in
              txn_date <- new_date y m d ;;
              let freq :=
                match frequency txn with
                | Some f => f
                | None => "never"%string
                end in
              match occurrences_within_window today txn_date freq max_window
              with
              | (yielded, Exhausted) =>
                  collect today rest max_window
                    (append_occurrences today k amt yielded occurrences)
              | (_, Failed e) => Raise e
              | (_, Unfinished) => OutOfFuel
              end
      end
  end.

Definition sort_by_date (l : list occurrence) : list occurrence :=
  stable_sort (fun a b => date_ltb (fst a) (fst b)) l.

Definition build_occurrences (today : date) (scheduled : list scheduled_txn)
    (max_window : Z) : exc (dict (list occurrence)) :=
  occurrences <- collect today scheduled max_window [] ;;
  Return (map (fun kv => (fst kv, sort_by_date (snd kv))) occurrences).

End Schedule.

(** ** Accounts *)

Module Account.

(** An account of the API; [None] is an absent key. *)
Record account : Type := mkAccount {
  id : string;
  name : option string;
  type : option string;
  on_budget : option bool;
  balance : option Z
}.

Definition non_cash_types : list string :=
  [ "creditCard"; "lineOfCredit"; "mortgage"; "autoLoan"; "studentLoan";
    "personalLoan"; "medicalDebt"; "otherDebt"; "otherLiability" ]%string.

Definition is_cash_account (a : account) : bool :=
  match type a with
  | Some t =>
      if existsb (String.eqb t) non_cash_types then false
      else match on_budget a with Some b => b | None => true end
  | None => match on_budget a with Some b => b | None => true end
  end.

Definition balance_of (a : account) : Z :=
  match balance a with Some b => b | None => 0 end.

End Account.

Import Account.

(** ** Risk assessor *)

Module Risk.
Import Projection.

Record entry : Type := mkEntry {
  name : string;
  projected : Z;
  current : Z;
  window : Z;
  drop_date : date
}.

(** [sorted(set(windows))]. *)
Fixpoint insert_unique (w : Z) (l : list Z) : list Z :=
  match l with
  | [] => [w]
  | x :: l' =>
      if w <? x then w :: x :: l'
      else if w =? x then x :: l'
      else x :: insert_unique w l'
  end.

Definition sorted_set (windows : list Z) : list Z :=
  fold_right insert_unique [] windows.

(** [risks[win].append(e)]; every window looked up is a key. *)
Fixpoint risks_append (win : Z) (e : entry) (risks : list (Z * list entry))
    : list (Z * list entry) :=
  match risks with
  | [] => []
  | (w, es) :: rest =>
      if w =? win then (w, es ++ [e]) :: rest
      else (w, es) :: risks_append win e rest
  end.

(** The loop over the windows, for one account. *)
Fixpoint project_windows (today : date) (a : account)
    (acct_occurrences : list occurrence) (bal : Z) (wins : list Z)
    (risks : list (Z * list entry)) : exc (list (Z * list entry)) :=
  match wins with
  | [] => Return risks
  | win :: wins' =>
      cutoff <- add_days today win ;;
      let '(proj, drop) := calc_projection acct_occurrences bal cutoff in
      let risks :=
        match drop with
        | Some dd =>
            risks_append win
              (mkEntry
                 (match Account.name a with Some n => n | None => id a end)
                 proj bal win dd)
              risks
        | None => risks
        end in
      project_windows today a acct_occurrences bal wins' risks
  end.

(** The loop over the accounts. *)
Fixpoint risk_loop (today : date) (accounts : list account)
    (occurrences : dict (list occurrence)) (sorted_windows : list Z)
    (risks : list (Z * list entry)) : exc (list (Z * list entry)) :=
  match accounts with
  | [] => Return risks
  | a :: rest =>
      if negb (is_cash_account a) then
        risk_loop today rest occurrences sorted_windows risks
      else
        match dict_get (id a) occurrences with
        | None | Some [] =>
            risk_loop today rest occurrences sorted_windows risks
        | Some acct_occurrences =>
            risks <-
              project_windows today a acct_occurrences (balance_of a)
                sorted_windows risks ;;
            risk_loop today rest occurrences sorted_windows risks
        end
  end.

Definition sort_by_projected (es : list entry) : list entry :=
  stable_sort (fun a b => projected a <? projected b) es.

Definition compute_risk (today : date) (accounts : list account)
    (occurrences : dict (list occurrence)) (windows : list Z)
    : exc (list (Z * list entry)) :=
  let sorted_windows := sorted_set windows in
  risks <-
    risk_loop today accounts occurrences sorted_windows
      (map (fun w => (w, [])) sorted_windows) ;;
  Return (map (fun r => (fst r, sort_by_projected (snd r))) risks).

(** Ascending by projected balance. *)
Definition by_severity (es : list entry) : Prop :=
  Sorted (fun a b => projected a <= projected b) es.

End Risk.

(** ** Deficit resolver and transfer allocator *)

Module Transfers.
Import Projection.

Record surplus : Type := mkSurplus {
  s_id : string;
  s_name : string;
  available : Z
}.

Record deficit : Type := mkDeficit {
  d_id : string;
  d_name : string;
  need : Z;
  drop_date : date
}.

Record move : Type := mkMove {
  m_from : string;
  m_to : string;
  amount : Z;
  cover_drop : date
}.

Record uncovered_group : Type := mkUncovered {
  u_drop_date : date;
  u_need : Z;
  u_available : Z;
  u_accounts : list deficit
}.

Definition name_or_empty (a : account) : string :=
  match Account.name a with Some n => n | None => ""%string end.

(** The projection of one account at the cutoff. *)
Definition projection_of (occurrences : dict (list occurrence))
    (cutoff : date) (a : account) : Z * option date :=
  calc_projection
    (match dict_get (id a) occurrences with Some l => l | None => [] end)
    (balance_of a) cutoff.

(** The classification loop: the surplus and the deficit entries, each in
    account order. *)
Fixpoint classify (today cutoff : date) (accounts : list account)
    (occurrences : dict (list occurrence)) : list surplus * list deficit :=
  match accounts with
  | [] => ([], [])
  | a :: rest =>
      let '(surpluses, deficits) := classify today cutoff rest occurrences in
      if negb (is_cash_account a) then (surpluses, deficits)
      else
        let '(proj, drop) := projection_of occurrences cutoff a in
        if 0 <? proj then
          (mkSurplus (id a) (name_or_empty a) proj :: surpluses, deficits)
        else if proj <? 0 then
          (surpluses,
           mkDeficit (id a) (name_or_empty a) (- proj)
             (match drop with Some dd => dd | None => today end)
           :: deficits)
        else (surpluses, deficits)
  end.

(** [surpluses.sort(key=available, reverse=True)]. *)
Definition sort_surpluses (l : list surplus) : list surplus :=
  stable_sort (fun a b => available b <? available a) l.

(** The [<] of the keys [(drop_date, -need)]. *)
Definition deficit_ltb (a b : deficit) : bool :=
  if date_eqb (drop_date a) (drop_date b) then - need a <? - need b
  else date_ltb (drop_date a) (drop_date b).

Definition sort_deficits (l : list deficit) : list deficit :=
  stable_sort deficit_ltb l.

(** The inner [while]: the deficits at the front that drop on [dd], and
    the rest. *)
Fixpoint span_group (dd : date) (deficits : list deficit)
    : list deficit * list deficit :=
  match deficits with
  | [] => ([], [])
  | d :: rest =>
      if date_eqb (drop_date d) dd then
        let '(g, r) := span_group dd rest in (d :: g, r)
      else ([], deficits)
  end.

Definition available_pool (surpluses : list surplus) : Z :=
  sum_Z (map available (filter (fun s => 0 <? available s) surpluses)).

Definition total_need (group : list deficit) : Z :=
  sum_Z (map need (filter (fun d => 0 <? need d) group)).

(** [enumerate(group)]. *)
Definition enumerate (group : list deficit) : list (nat * deficit) :=
  combine (seq 0 (List.length group)) group.

(** The remainder loop, over the members in descending need. *)
Fixpoint distribute (order : list (nat * deficit)) (allocations : list Z)
    (remainder : Z) : list Z :=
  match order with
  | [] => allocations
  | (i, d) :: rest =>
      if remainder <=? 0 then allocations
      else
        let room := need d - nth i allocations 0 in
        if room <=? 0 then distribute rest allocations remainder
        else
          let extra := Z.min room remainder in
          distribute rest
            (list_set i (nth i allocations 0 + extra) allocations)
            (remainder - extra)
  end.

(** The two allocation phases. *)
Definition allocate (group : list deficit) (allocatable total : Z) : list Z :=
  let allocations :=
    map (fun d => Z.min (need d) (allocatable * need d / total)) group in
  let remainder := allocatable - sum_Z allocations in
  distribute
    (stable_sort (fun a b => need (snd b) <? need (snd a)) (enumerate group))
    allocations remainder.

(** The loop over the sources, for one deficit. *)
Fixpoint draw (remaining : Z) (d : deficit) (surpluses : list surplus)
    : list surplus * list move :=
  match surpluses with
  | [] => ([], [])
  | source :: rest =>
      if remaining <=? 0 then (surpluses, [])
      else if available source <=? 0 then
        let '(rest', ms) := draw remaining d rest in (source :: rest', ms)
      else
        let amt := Z.min remaining (available source) in
        if amt <=? 0 then
          let '(rest', ms) := draw remaining d rest in (source :: rest', ms)
        else
          let '(rest', ms) := draw (remaining - amt) d rest in
          (mkSurplus (s_id source) (s_name source) (available source - amt)
             :: rest',
           mkMove (s_name source) (d_name d) amt (drop_date d) :: ms)
  end.

(** The loop over [zip(allocations, group)]. *)
Fixpoint execute (pairs : list (Z * deficit)) (surpluses : list surplus)
    : list surplus * list move :=
  match pairs with
  | [] => (surpluses, [])
  | (alloc, d) :: rest =>
      if alloc <=? 0 then execute rest surpluses
      else
        let '(surpluses1, ms1) := draw alloc d surpluses in
        let '(surpluses2, ms2) := execute rest surpluses1 in
        (surpluses2, ms1 ++ ms2)
  end.

(** One pass of the outer [while] body after the group is cut off: the
    surplus entries afterwards, the moves appended and the uncovered groups
    appended. *)
Definition process_group (surpluses : list surplus) (dd : date)
    (group : list deficit)
    : list surplus * list move * list uncovered_group :=
  let pool := available_pool surpluses in
  let total := total_need group in
  if (pool <=? 0) || (total <=? 0) then
    (surpluses, [],
     if 0 <? total then [mkUncovered dd total pool group] else [])
  else if pool <? total then
    (surpluses, [], [mkUncovered dd total pool group])
  else
    let allocatable := Z.min pool total in
    let allocations := allocate group allocatable total in
    let '(surpluses', ms) := execute (combine allocations group) surpluses in
    (surpluses', ms, []).

(** The outer [while idx < len(deficits)] loop, on the deficits from [idx]
    on; one unit of budget per group. *)
Fixpoint transfer_loop (fuel : nat) (deficits : list deficit)
    (surpluses : list surplus) (moves : list move)
    (uncovered : list uncovered_group)
    : exc (list move * list uncovered_group) :=
  match deficits with
  | [] => Return (moves, uncovered)
  | first :: _ =>
      match fuel with
      | O => OutOfFuel
      | S fuel' =>
          let dd := drop_date first in
          let '(group, rest) := span_group dd deficits in
          let '(surpluses', ms, us) := process_group surpluses dd group in
          transfer_loop fuel' rest surpluses' (moves ++ ms) (uncovered ++ us)
      end
  end.

(** The entries the allocation starts from. *)
Definition sorted_entries (today cutoff : date) (accounts : list account)
    (occurrences : dict (list occurrence)) : list surplus * list deficit :=
  let '(surpluses, deficits) := classify today cutoff accounts occurrences in
  (sort_surpluses surpluses, sort_deficits deficits).

Definition max_window (w : Z) (ws : list Z) : Z := fold_left Z.max ws w.

Definition compute_transfers (today : date) (accounts : list account)
    (occurrences : dict (list occurrence)) (windows : list Z)
    : exc (list move * list uncovered_group) :=
  match windows with
  | [] => Return ([], [])
  | w :: ws =>
      cutoff <- add_days today (max_window w ws) ;;
      let '(surpluses, deficits) :=
        sorted_entries today cutoff accounts occurrences in
      transfer_loop (List.length deficits) deficits surpluses [] []
  end.

(** How the classification loop sorts one account: a cash account with a
    strictly positive projection is a surplus, one with a strictly negative
    projection a deficit. *)
Definition classified_surplus (occurrences : dict (list occurrence))
    (cutoff : date) (a : account) : Prop :=
  is_cash_account a = true /\ 0 < fst (projection_of occurrences cutoff a).

Definition classified_deficit (occurrences : dict (list occurrence))
    (cutoff : date) (a : account) : Prop :=
  is_cash_account a = true /\ fst (projection_of occurrences cutoff a) < 0.

(** *** The trace of the allocation pass *)

(** What one pass of the outer loop saw and did. *)
Record step : Type := mkStep {
  before : list surplus;
  group : list deficit;
  after : list surplus;
  emitted : list move;
  recorded : list uncovered_group
}.

(** [transfer_loop], keeping each pass. *)
Fixpoint transfer_steps (fuel : nat) (deficits : list deficit)
    (surpluses : list surplus) : exc (list step) :=
  match deficits with
  | [] => Return []
  | first :: _ =>
      match fuel with
      | O => OutOfFuel
      | S fuel' =>
          let dd := drop_date first in
          let '(g, rest) := span_group dd deficits in
          let '(surpluses', ms, us) := process_group surpluses dd g in
          steps <- transfer_steps fuel' rest surpluses' ;;
          Return (mkStep surpluses g surpluses' ms us :: steps)
      end
  end.

(** The passes of [compute_transfers]. *)
Definition allocation_steps (today : date) (accounts : list account)
    (occurrences : dict (list occurrence)) (windows : list Z)
    : exc (list step) :=
  match windows with
  | [] => Return []
  | w :: ws =>
      cutoff <- add_days today (max_window w ws) ;;
      let '(surpluses, deficits) :=
        sorted_entries today cutoff accounts occurrences in
      transfer_steps (List.length deficits) deficits surpluses
  end.

(** A withdrawal of [amount m] from one source named [m_from m] that holds
    at least that much. *)
Inductive withdraw : list surplus -> move -> list surplus -> Prop :=
| withdraw_here (s : surplus) (rest : list surplus) (m : move) :
    m_from m = s_name s ->
    0 < amount m <= available s ->
    withdraw (s :: rest) m
      (mkSurplus (s_id s) (s_name s) (available s - amount m) :: rest)
| withdraw_later (s : surplus) (rest rest' : list surplus) (m : move) :
    withdraw rest m rest' ->
    withdraw (s :: rest) m (s :: rest').

(** A list of moves carried out one after the other on the sources. *)
Inductive withdrawals : list surplus -> list move -> list surplus -> Prop :=
| withdrawals_nil (ss : list surplus) : withdrawals ss [] ss
| withdrawals_cons (ss ss1 ss2 : list surplus) (m : move) (ms : list move) :
    withdraw ss m ss1 ->
    withdrawals ss1 ms ss2 ->
    withdrawals ss (m :: ms) ss2.

(** The moves that cover one deficit: all to it, for its drop date, and
    adding up to exactly its need. *)
Definition covers (d : deficit) (ms : list move) : Prop :=
  Forall (fun m => m_to m = d_name d /\ cover_drop m = drop_date d) ms
  /\ sum_Z (map amount ms) = need d.

(** The moves of one [draw]: to the deficit, for its drop date, each of a
    positive amount. *)
Definition drawn_for (d : deficit) (m : move) : Prop :=
  m_to m = d_name d /\ cover_drop m = drop_date d /\ 0 < amount m.

(** The moves of one covered group, split by member. *)
Definition covered_by (g : list deficit) (ms : list move) : Prop :=
  exists parts, ms = List.concat parts /\ Forall2 covers g parts.

(** What holds of every pass: it is [process_group] on the sources as they
    then stand and on a group of deficits sharing one drop date. *)
Definition pass_of (deficits : list deficit) (ss0 : list surplus)
    (st : step) : Prop :=
  (exists dd,
      Forall (fun d => drop_date d = dd) (group st)
      /\ process_group (before st) dd (group st)
         = (after st, emitted st, recorded st))
  /\ incl (group st) deficits
  /\ map s_name (before st) = map s_name ss0.

End Transfers.

(** * Further definitions *)

(** ** The day-based frequencies *)

Module Steps.

(** The frequencies advanced by a fixed number of days, each with its
    step. *)
Definition day_frequencies : list (string * Z) :=
  [ ("daily", 1); ("weekly", 7); ("everyOtherWeek", 14);
    ("every4Weeks", 28); ("twiceAMonth", 15) ]%string.

(** Each date is what the advance rule makes of the date before it. *)
Definition advances (f : string) (ds : list date) : Prop :=
  Sorted (fun a b => Schedule.advance_date a f = Return (Some b)) ds.

End Steps.

(** ** What a built occurrence mapping holds *)

Module Built.

(** A schedule that [build_occurrences] passes over: no account id, or a
    net amount of zero. *)
Definition skipped (txn : Schedule.scheduled_txn) : Prop :=
  Schedule.account_id txn = None
  \/ Schedule.account_id txn = Some ""%string
  \/ Schedule.txn_amount txn = 0.

(** An occurrence that stems from a schedule of account [k]: its amount is
    the schedule's net amount, which is not zero. *)
Definition stems_from (scheduled : list Schedule.scheduled_txn) (k : string)
    (o : occurrence) : Prop :=
  snd o <> 0
  /\ exists txn,
       In txn scheduled
       /\ Schedule.account_id txn = Some k
       /\ Schedule.txn_amount txn = snd o.

(** Every key is a non-empty account id, and its list is not empty and
    holds only occurrences of schedules of that account. *)
Definition well_keyed (scheduled : list Schedule.scheduled_txn)
    (m : dict (list occurrence)) : Prop :=
  forall k l,
    In (k, l) m ->
    k <> ""%string /\ l <> [] /\ Forall (stems_from scheduled k) l.

End Built.

(** ** The entries of a risk map, account by account *)

Module Reported.

(** The entry of account [a], with occurrences [l], for window [win]: one
    entry when the projection at today+[win] records a drop date. *)
Definition own_entry (today : date) (a : account) (l : list occurrence)
    (win : Z) : list Risk.entry :=
  match add_days today win with
  | Return cutoff =>
      match Projection.calc_projection l (balance_of a) cutoff with
      | (proj, Some dd) =>
          [ Risk.mkEntry
              (match Account.name a with Some n => n | None => id a end)
              proj (balance_of a) win dd ]
      | (_, None) => []
      end
  | _ => []
  end.

(** What one account adds to the entries of window [win]: nothing unless it
    is a cash account with occurrences. *)
Definition entry_at (today : date) (occurrences : dict (list occurrence))
    (win : Z) (a : account) : list Risk.entry :=
  if is_cash_account a then
    match dict_get (id a) occurrences with
    | None | Some [] => []
    | Some acct_occurrences => own_entry today a acct_occurrences win
    end
  else [].

(** The entries of window [win] before the final sort: those of every
    account, in account order. *)
Definition entries_at (today : date) (accounts : list account)
    (occurrences : dict (list occurrence)) (win : Z) : list Risk.entry :=
  flat_map (entry_at today occurrences win) accounts.

(** A risk map over the keys [keys], given by its entries per window. *)
Definition tabulate (F : Z -> list Risk.entry) (keys : list Z)
    : list (Z * list Risk.entry) :=
  map (fun w => (w, F w)) keys.

(** Every requested window has a cutoff date. *)
Definition windows_in_range (today : date) (windows : list Z) : Prop :=
  forall w, In w windows -> exists cutoff, add_days today w = Return cutoff.

End Reported.

(** ** The allocation pass as a whole *)

Module Pass.
Import Transfers.

(** A source after some withdrawals: the same account, holding no more
    than before and nothing below zero. *)
Definition drained (s s' : surplus) : Prop :=
  s_id s' = s_id s /\ s_name s' = s_name s
  /\ 0 <= available s' <= available s.

(** Each pass starts from the sources the pass before it left. *)
Fixpoint linked (ss : list surplus) (steps : list step) : Prop :=
  match steps with
  | [] => True
  | st :: rest => before st = ss /\ linked (after st) rest
  end.

(** The groups come in strictly ascending drop date. *)
Definition dates_increase (steps : list step) : Prop :=
  StronglySorted
    (fun s1 s2 =>
       forall d1 d2,
         In d1 (group s1) -> In d2 (group s2) ->
         date_ltb (drop_date d1) (drop_date d2) = true)
    steps.

(** A group: not empty, of one drop date, largest need first. *)
Definition one_date_group (g : list deficit) : Prop :=
  g <> []
  /\ (forall d1 d2, In d1 g -> In d2 g -> drop_date d1 = drop_date d2)
  /\ Sorted (fun a b => need b <= need a) g.

(** An uncovered record: a group of one drop date whose positive needs add
    up to more than the pool held when it was reached. *)
Definition short_record (u : uncovered_group) : Prop :=
  0 <= u_available u < u_need u
  /\ u_accounts u <> []
  /\ Forall (fun d => drop_date d = u_drop_date u /\ 0 < need d)
       (u_accounts u)
  /\ u_need u = sum_Z (map need (u_accounts u)).


End Pass.

(** ** Proof automation for the boolean comparisons *)

Ltac to_prop :=
  repeat rewrite ?andb_true_iff, ?orb_true_iff, ?negb_true_iff,
    ?andb_false_iff, ?orb_false_iff, ?negb_false_iff,
    ?Z.ltb_lt, ?Z.ltb_ge, ?Z.leb_le, ?Z.leb_gt, ?Z.eqb_eq, ?Z.eqb_neq in *.

Ltac date_order :=
  unfold date_leb, date_ltb, date_eqb in *; simpl in *; to_prop; lia.

(** ** Proof automation for the calendar tables *)

Ltac each_month H :=
  let E := fresh "E" in
  destruct H as [E|[E|[E|[E|[E|[E|[E|[E|[E|[E|[E|E]]]]]]]]]]]; rewrite E in *.

Ltac closed_arith :=
  repeat match goal with
  | |- context [Z.sub (Zpos ?p) (Zpos ?q)] =>
      let v := eval vm_compute in (Z.sub (Zpos p) (Zpos q)) in
      change (Z.sub (Zpos p) (Zpos q)) with v
  | |- context [Z.add (Zpos ?p) (Zpos ?q)] =>
      let v := eval vm_compute in (Z.add (Zpos p) (Zpos q)) in
      change (Z.add (Zpos p) (Zpos q)) with v
  | |- context [Z.ltb (Zpos ?p) (Zpos ?q)] =>
      let v := eval vm_compute in (Z.ltb (Zpos p) (Zpos q)) in
      change (Z.ltb (Zpos p) (Zpos q)) with v
  | |- context [Z.ltb (Zpos ?p) Z0] =>
      change (Z.ltb (Zpos p) Z0) with false
  | |- context [Z.eqb (Zpos ?p) (Zpos ?q)] =>
      let v := eval vm_compute in (Z.eqb (Zpos p) (Zpos q)) in
      change (Z.eqb (Zpos p) (Zpos q)) with v
  | |- context [Z.eqb Z0 (Zpos ?q)] =>
      change (Z.eqb Z0 (Zpos q)) with false
  end.

Ltac table_lookup :=
  closed_arith;
  cbv beta iota delta [DAYS_BEFORE_MONTH DAYS_IN_MONTH andb].

Ltac split_div x d q r :=
  let Hd := fresh "Hdiv" in
  let Hb := fresh "Hrem" in
  assert (Hd : x = d * (x / d) + x mod d) by (apply Z.div_mod; lia);
  assert (Hb : 0 <= x mod d < d) by (apply Z.mod_pos_bound; lia);
  set (q := x / d) in *; set (r := x mod d) in *;
  clearbody q r.

(** * Properties *)

(** ** The order on dates *)

Section DateOrder.
Implicit Types a b c : date.

Lemma date_leb_trans a b c :
  date_leb a b = true -> date_leb b c = true -> date_leb a c = true.
Proof. destruct a, b, c; date_order. Qed.

Lemma date_ltb_leb_trans a b c :
  date_ltb a b = true -> date_leb b c = true -> date_ltb a c = true.
Proof. destruct a, b, c; date_order. Qed.

Lemma date_ltb_false_leb a b : date_ltb a b = false -> date_leb b a = true.
Proof. unfold date_leb; intros ->; reflexivity. Qed.

Lemma date_leb_false_ltb a b : date_leb a b = false -> date_ltb b a = true.
Proof. unfold date_leb; intros H; apply negb_false_iff in H; exact H. Qed.

Lemma date_leb_total a b : date_leb a b = false -> date_leb b a = true.
Proof. destruct a, b; date_order. Qed.

Lemma date_eqb_eq a b : date_eqb a b = true <-> a = b.
Proof.
  destruct a, b; unfold date_eqb; simpl; to_prop; split.
  - intros [[-> ->] ->]; reflexivity.
  - intros [= -> -> ->]; auto.
Qed.

Lemma date_ltb_irrefl a : date_ltb a a = false.
Proof. destruct a; unfold date_ltb; simpl; to_prop; lia. Qed.
End DateOrder.

Example toordinal_2024_01_01 : toordinal (mkDate 2024 1 1) = 738886.
Proof. reflexivity. Qed.

Example fromordinal_leap_day : fromordinal 738945 = Return (mkDate 2024 2 29).
Proof. reflexivity. Qed.

Example add_days_year_end :
  add_days (mkDate 2023 12 31) 1 = Return (mkDate 2024 1 1).
Proof. reflexivity. Qed.

Example add_days_overflow :
  add_days (mkDate 9999 12 31) 1 = Raise OverflowError.
Proof. reflexivity. Qed.

(** Every date that comes out of the constructor is well formed. *)
Lemma new_date_valid y m d dt :
  new_date y m d = Return dt ->
  valid_date dt = true /\ year dt = y /\ month dt = m /\ day dt = d.
Proof.
  unfold new_date, valid_date.
  destruct (check_date_fields y m d) eqn:E; [|discriminate].
  intros [= <-]; simpl; auto.
Qed.

Lemma add_days_valid d k dt : add_days d k = Return dt -> valid_date dt = true.
Proof.
  unfold add_days, fromordinal.
  destruct (_ && _); [|discriminate].
  destruct (ord2ymd _) as [[y m] dd]; intros H.
  apply new_date_valid in H; tauto.
Qed.

Lemma days_in_month_le y m : days_in_month y m <= 31.
Proof.
  unfold days_in_month, DAYS_IN_MONTH.
  destruct (_ && _); [lia|].
  destruct m as [|p|p]; try lia.
  do 4 (try destruct p as [p|p|]); lia.
Qed.

Lemma valid_date_bounds d :
  valid_date d = true ->
  1 <= year d <= 9999 /\ 1 <= month d <= 12 /\ 1 <= day d <= 31.
Proof.
  unfold valid_date, check_date_fields, MINYEAR, MAXYEAR.
  intros H. to_prop.
  pose proof (days_in_month_le (year d) (month d)). lia.
Qed.

(** On well-formed dates the linear index grows with the order. *)
Lemma date_index_ltb a b :
  valid_date a = true -> valid_date b = true ->
  date_ltb a b = true -> date_index a < date_index b.
Proof.
  intros Ha Hb H.
  apply valid_date_bounds in Ha, Hb.
  destruct a as [ya ma da], b as [yb mb db].
  unfold date_ltb, date_index in *; simpl in *.
  to_prop. lia.
Qed.

(** ** Projection calculator *)

Section ProjectionFacts.
Import Projection.

Variable cutoff : date.

Lemma date_ascending_strong occs :
  date_ascending occs ->
  StronglySorted (fun a b => date_leb (fst a) (fst b) = true) occs.
Proof.
  apply Sorted_StronglySorted.
  intros a b c; apply date_leb_trans.
Qed.

(** Behind an occurrence past the cutoff, a sorted list has nothing due. *)
Lemma due_past_cutoff (o : occurrence) rest :
  date_ltb cutoff (fst o) = true ->
  Forall (fun b => date_leb (fst o) (fst b) = true) rest ->
  due cutoff rest = [].
Proof.
  intros Ho Hall; induction Hall as [|b rest Hb _ IH]; [reflexivity|].
  simpl. rewrite IH.
  pose proof (date_ltb_leb_trans _ _ _ Ho Hb) as Hlt.
  unfold date_leb. rewrite Hlt. reflexivity.
Qed.

(** A drop date already recorded is what the loop returns. *)
Lemma projection_loop_recorded occs projected d :
  snd (projection_loop occs projected (Some d) cutoff) = Some d.
Proof.
  revert projected; induction occs as [|[when amt] rest IH]; intros;
    simpl; [reflexivity|].
  destruct (date_ltb cutoff when); [reflexivity | apply IH].
Qed.

Lemma projection_loop_due occs :
  StronglySorted (fun a b => date_leb (fst a) (fst b) = true) occs ->
  forall projected drop,
    projection_loop occs projected drop cutoff
    = (accumulated projected (due cutoff occs),
       match drop with
       | Some d => Some d
       | None => first_drop projected (due cutoff occs)
       end).
Proof.
  unfold accumulated, sum_Z.
  induction 1 as [|[when amt] rest Hrest IH Hhd]; intros projected drop.
  - simpl. destruct drop; f_equal; lia.
  - assert (Hleb : date_leb when cutoff = negb (date_ltb cutoff when))
      by reflexivity.
    simpl. rewrite Hleb.
    destruct (date_ltb cutoff when) eqn:Hcut; simpl.
    + rewrite (due_past_cutoff (when, amt) rest Hcut Hhd). simpl.
      destruct drop; f_equal; lia.
    + rewrite IH. f_equal; [lia|].
      destruct drop as [d|]; [reflexivity|].
      destruct (projected + amt <? 0); reflexivity.
Qed.

Lemma projection_loop_app l1 l2 projected drop d :
  snd (projection_loop l1 projected drop cutoff) = Some d ->
  snd (projection_loop (l1 ++ l2) projected drop cutoff) = Some d.
Proof.
  revert projected drop; induction l1 as [|[when amt] rest IH];
    intros projected drop; simpl.
  - intros ->. apply projection_loop_recorded.
  - destruct (date_ltb cutoff when); [auto | apply IH].
Qed.
End ProjectionFacts.

(** C1, as amended: on every occurrence list that is in ascending date
    order, [calc_projection] applies exactly the occurrences dated no later
    than the cutoff, in list order, and returns the accumulated balance with
    the date of the first occurrence that made the running balance strictly
    negative, or none; occurrences that follow never clear a recorded drop
    date. *)
Theorem calc_projection_ascending (occs : list occurrence) (balance : Z)
    (cutoff : date) :
  Projection.date_ascending occs ->
  Projection.calc_projection occs balance cutoff
  = (Projection.accumulated balance (Projection.due cutoff occs),
     Projection.first_drop balance (Projection.due cutoff occs))
  /\ forall later d,
       snd (Projection.calc_projection occs balance cutoff) = Some d ->
       snd (Projection.calc_projection (occs ++ later) balance cutoff)
       = Some d.
Proof.
  intros Hsorted; split.
  - unfold Projection.calc_projection.
    rewrite (projection_loop_due cutoff occs); [reflexivity|].
    apply date_ascending_strong, Hsorted.
  - intros later d. apply projection_loop_app.
Qed.

(** A balance of 1000 that drops on the 5th and recovers on the 9th. *)
Lemma calc_projection_ascending_witness :
  let occs := [ (mkDate 2024 3 5, -1500); (mkDate 2024 3 9, 2000);
                (mkDate 2024 3 20, -100) ] in
  Projection.calc_projection occs 1000 (mkDate 2024 3 10)
  = (1500, Some (mkDate 2024 3 5)).
Proof.
  intros occs.
  refine (proj1 (calc_projection_ascending occs 1000 (mkDate 2024 3 10) _)).
  repeat constructor.
Defined.

(** C1 as stated fails on a list that is not in date order: the loop stops
    at the first occurrence past the cutoff and never reaches a due
    occurrence behind it.  Here it returns [(1000, None)], while the
    occurrence of the 5th is due and takes the balance to -500. *)
Lemma calc_projection_unsorted_counterexample :
  let occs := [ (mkDate 2024 3 20, -100); (mkDate 2024 3 5, -1500) ] in
  let cutoff := mkDate 2024 3 10 in
  Projection.calc_projection occs 1000 cutoff
  <> (Projection.accumulated 1000 (Projection.due cutoff occs),
      Projection.first_drop 1000 (Projection.due cutoff occs)).
Proof. vm_compute. discriminate. Qed.

(** ** Month arithmetic *)

Section AddMonths.
Import Schedule.

Lemma days_in_month_ge y m : 1 <= m <= 12 -> 28 <= days_in_month y m.
Proof.
  intros Hm. unfold days_in_month, DAYS_IN_MONTH.
  destruct (_ && _); [lia|].
  destruct m as [|p|p]; try lia.
  do 4 (try destruct p as [p|p|]); lia.
Qed.

Lemma add_months_fields src months :
  add_months src months
  = new_date (target_year src months) (target_month src months)
      (Z.min (day src)
         (days_in_month (target_year src months)
            (target_month src months))).
Proof. reflexivity. Qed.

Lemma target_month_range src months : 1 <= target_month src months <= 12.
Proof.
  unfold target_month.
  pose proof (Z.mod_pos_bound (month src - 1 + months) 12). lia.
Qed.

Lemma target_year_ge src months :
  valid_date src = true -> 0 <= months -> year src <= target_year src months.
Proof.
  intros Hv Hm. apply valid_date_bounds in Hv.
  unfold target_year.
  assert (0 <= (month src - 1 + months) / 12)
    by (apply Z.div_pos; lia).
  lia.
Qed.

Lemma add_months_valid src k d :
  add_months src k = Return d -> valid_date d = true.
Proof. intros H. apply new_date_valid in H. tauto. Qed.

Lemma month_frequency_advance current f k :
  In (f, k) month_frequencies ->
  advance_date current f = (d <- add_months current k ;; Return (Some d)).
Proof.
  simpl. intros H.
  repeat (destruct H as [[= <- <-] | H]; [reflexivity|]).
  contradiction.
Qed.
End AddMonths.

(** C9, as amended: for every source date and every non-negative month
    count whose target month lies in a year up to 9999, [add_months] returns
    the date of the target month (source month plus the count, carrying into
    the year) whose day is the source day clamped to the last day of that
    month; and each month-based frequency advances by [add_months] with its
    month count. *)
Theorem add_months_clamps (src : date) (months : Z) :
  valid_date src = true ->
  0 <= months ->
  Schedule.target_year src months <= MAXYEAR ->
  (exists d,
      Schedule.add_months src months = Return d
      /\ valid_date d = true
      /\ year d = Schedule.target_year src months
      /\ month d = Schedule.target_month src months
      /\ day d
         = Z.min (day src)
             (days_in_month (Schedule.target_year src months)
                (Schedule.target_month src months)))
  /\ forall f k,
       In (f, k) Schedule.month_frequencies ->
       Schedule.advance_date src f
       = (d <- Schedule.add_months src k ;; Return (Some d)).
Proof.
  intros Hv Hm Hy. split.
  - rewrite add_months_fields.
    pose proof (target_month_range src months) as Hmo.
    pose proof (target_year_ge src months Hv Hm) as Hyr.
    pose proof (days_in_month_ge (Schedule.target_year src months) _ Hmo).
    pose proof (valid_date_bounds src Hv) as Hb.
    unfold new_date.
    assert (check_date_fields (Schedule.target_year src months)
              (Schedule.target_month src months)
              (Z.min (day src)
                 (days_in_month (Schedule.target_year src months)
                    (Schedule.target_month src months))) = true) as Hc.
    { unfold check_date_fields, MINYEAR, MAXYEAR in *. to_prop. lia. }
    rewrite Hc. eexists; repeat split; eauto.
  - intros f k. apply month_frequency_advance.
Qed.

(** The 31st of January, one month on in a leap year. *)
Lemma add_months_clamps_witness :
  exists d,
    Schedule.add_months (mkDate 2024 1 31) 1 = Return d
    /\ valid_date d = true
    /\ year d = 2024 /\ month d = 2 /\ day d = 29.
Proof.
  refine (proj1 (add_months_clamps (mkDate 2024 1 31) 1 _ _ _)).
  - reflexivity.
  - lia.
  - vm_compute. discriminate.
Defined.

(** C9 as stated fails where the target month lies beyond year 9999: the
    date constructor refuses the year and [add_months] returns no date. *)
Lemma add_months_year_limit_counterexample :
  valid_date (mkDate 9999 12 31) = true
  /\ 0 <= 1
  /\ ~ exists d, Schedule.add_months (mkDate 9999 12 31) 1 = Return d.
Proof.
  split; [reflexivity|]. split; [lia|].
  intros [d H]. vm_compute in H. discriminate.
Qed.

(** ** Occurrence generator *)

Section GeneratorFacts.
Import Schedule.

Lemma date_index_leb a b :
  valid_date a = true -> valid_date b = true ->
  date_leb a b = true -> date_index a <= date_index b.
Proof.
  intros Ha Hb H.
  apply valid_date_bounds in Ha, Hb.
  destruct a as [ya ma da], b as [yb mb db].
  unfold date_leb, date_ltb, date_index in *; simpl in *.
  to_prop. lia.
Qed.

Lemma advance_date_rule : advance_rule advance_date.
Proof.
  intros current f. unfold advance_date.
  repeat match goal with
  | |- context [String.eqb f ?s] => destruct (String.eqb f s)
  end;
  try (split; [discriminate | discriminate]);
  match goal with
  | |- context [add_days current ?k] =>
      destruct (add_days current k) as [d'| |] eqn:E;
      [ apply add_days_valid in E | | ];
      simpl bind
  | |- context [add_months current ?k] =>
      destruct (add_months current k) as [d'| |] eqn:E;
      [ apply add_months_valid in E | | ];
      simpl bind
  end;
  try (split; [discriminate | intros d [= <-]; assumption]);
  try (split; [discriminate | discriminate]).
  all: exfalso; revert E;
    unfold add_days, fromordinal, add_months, new_date;
    repeat match goal with
    | |- context [if ?b then _ else _] => destruct b
    | |- context [let '(_, _) := ?p in _] => destruct p
    end; discriminate.
Qed.

Variable advance : date -> string -> exc (option date).
Hypothesis advance_ok : advance_rule advance.

Variables today cutoff : date.
Variable f : string.
Hypothesis cutoff_valid : valid_date cutoff = true.

(** With a budget above the index distance to the cutoff the loop ends by
    itself; what it yields lies in the window, is strictly ascending and
    is no earlier than the date it started from. *)
Lemma generate_spec fuel :
  forall current,
    valid_date current = true ->
    (1 <= fuel)%nat ->
    (date_leb current cutoff = true ->
     (Z.to_nat (date_index cutoff - date_index current) + 2 <= fuel)%nat) ->
    exists ds fin,
      generate advance fuel today cutoff f current = (ds, fin)
      /\ fin <> Unfinished
      /\ Forall (fun d => date_leb today d = true
                          /\ date_leb d cutoff = true
                          /\ date_leb current d = true) ds
      /\ StronglySorted (fun a b => date_ltb a b = true) ds.
Proof.
  induction fuel as [|fuel IH]; intros current Hcur Hone Hfuel; [lia|].
  simpl.
  destruct (date_leb current cutoff) eqn:Hle.
  2:{ exists [], Exhausted. repeat split; try constructor; discriminate. }
  specialize (Hfuel eq_refl).
  assert (Hyield :
    Forall (fun d => date_leb today d = true /\ date_leb d cutoff = true
                     /\ date_leb current d = true)
      (if date_leb today current then [current] else [])).
  { destruct (date_leb today current) eqn:Ht; constructor; [|constructor].
    repeat split; auto. unfold date_leb. now rewrite date_ltb_irrefl. }
  assert (Hsorted1 :
    StronglySorted (fun a b => date_ltb a b = true)
      (if date_leb today current then [current] else [])).
  { destruct (date_leb today current); repeat constructor. }
  destruct (advance_ok current f) as [Hfuel' Hvalid].
  destruct (advance current f) as [[next|]| e |] eqn:Hadv.
  - destruct (date_leb next current) eqn:Hnext.
    + eexists _, Exhausted. repeat split; eauto; discriminate.
    + pose proof (Hvalid next eq_refl) as Hnv.
      apply date_leb_false_ltb in Hnext.
      pose proof (date_index_ltb _ _ Hcur Hnv Hnext) as Hidx.
      pose proof (date_index_leb _ _ Hcur cutoff_valid Hle) as Hidx'.
      destruct (IH next Hnv) as (later & fin & Heq & Hfin & Hall & Hs).
      * lia.
      * intros Hnc.
        pose proof (date_index_leb _ _ Hnv cutoff_valid Hnc). lia.
      * rewrite Heq. eexists _, fin. split; [reflexivity|].
        split; [exact Hfin|]. split.
        -- apply Forall_app; split; [exact Hyield|].
           eapply Forall_impl; [|exact Hall].
           intros d (? & ? & Hd). repeat split; auto.
           destruct current, next, d; date_order.
        -- destruct (date_leb today current); [|exact Hs].
           simpl. constructor; [exact Hs|].
           eapply Forall_impl; [|exact Hall].
           intros d (? & ? & Hd).
           apply (date_ltb_leb_trans _ _ _ Hnext Hd).
  - eexists _, Exhausted. repeat split; eauto; discriminate.
  - eexists _, (Failed e). repeat split; eauto; discriminate.
  - contradiction.
Qed.
End GeneratorFacts.

Lemma occurrences_with_ends advance today start f max_days :
  Schedule.advance_rule advance ->
  valid_date start = true ->
  Schedule.ends_in_window (Schedule.occurrences_with advance) today start f max_days.
Proof.
  intros Hadv Hstart.
  unfold Schedule.ends_in_window, Schedule.occurrences_with.
  destruct (add_days today max_days) as [cutoff| e |] eqn:Hcut.
  - pose proof (add_days_valid _ _ _ Hcut) as Hcv.
    destruct (generate_spec advance Hadv today cutoff f Hcv
                (Schedule.budget start cutoff) start Hstart)
      as (ds & fin & Heq & Hfin & Hall & Hs).
    + unfold Schedule.budget. lia.
    + intros _. unfold Schedule.budget. lia.
    + exists ds, fin. repeat split; auto.
      intros d Hd. exists cutoff. split; [reflexivity|].
      rewrite Forall_forall in Hall. destruct (Hall d Hd) as (? & ? & _).
      auto.
  - exists [], (Schedule.Failed e).
    repeat split; try discriminate; try constructor. intros d [].
  - exfalso. revert Hcut. unfold add_days, fromordinal, new_date.
    repeat match goal with
    | |- context [if ?b then _ else _] => destruct b
    | |- context [let '(_, _) := ?p in _] => destruct p
    end; discriminate.
Qed.

(** C4: for every start date, frequency and horizon,
    [occurrences_within_window] terminates, every date it yields lies within
    [today, today+horizon], and the yielded dates are strictly ascending;
    the same holds of the loop run with any advance rule, whether or not it
    returns a date or moves the date forward. *)
Theorem occurrences_within_window_terminates (today start : date)
    (f : string) (max_days : Z) :
  valid_date start = true ->
  Schedule.ends_in_window Schedule.occurrences_within_window today start f max_days
  /\ forall advance,
       Schedule.advance_rule advance ->
       Schedule.ends_in_window (Schedule.occurrences_with advance)
         today start f max_days.
Proof.
  intros Hstart. split.
  - apply occurrences_with_ends; [apply advance_date_rule | exact Hstart].
  - intros advance Hadv. apply occurrences_with_ends; assumption.
Qed.

(** A monthly schedule anchored at the end of January, over 90 days. *)
Lemma occurrences_within_window_terminates_witness :
  Schedule.ends_in_window Schedule.occurrences_within_window
    (mkDate 2024 1 15) (mkDate 2024 1 31) "monthly" 90.
Proof.
  apply (proj1 (occurrences_within_window_terminates
                  (mkDate 2024 1 15) (mkDate 2024 1 31) "monthly" 90
                  eq_refl)).
Defined.

Example monthly_from_month_end :
  Schedule.occurrences_within_window
    (mkDate 2024 1 15) (mkDate 2024 1 31) "monthly" 90
  = ([mkDate 2024 1 31; mkDate 2024 2 29; mkDate 2024 3 29],
     Schedule.Exhausted).
Proof. reflexivity. Qed.

Example daily_at_the_last_day :
  Schedule.occurrences_within_window
    (mkDate 9999 12 28) (mkDate 9999 12 30) "daily" 3
  = ([mkDate 9999 12 30; mkDate 9999 12 31],
     Schedule.Failed OverflowError).
Proof. reflexivity. Qed.

Section SingleOccurrence.
Import Schedule.


End SingleOccurrence.



Example never_outside_the_window :
  Schedule.occurrences_within_window
    (mkDate 2024 5 1) (mkDate 2024 6 3) "never" 7
  = ([], Schedule.Exhausted).
Proof. reflexivity. Qed.

(** ** The stable sort *)

Section StableSortFacts.
Context {A : Type}.
Variable ltb : A -> A -> bool.

Lemma insert_sorted_perm x l : Permutation (insert_sorted ltb x l) (x :: l).
Proof.
  induction l as [|y l IH]; simpl; [reflexivity|].
  destruct (ltb y x); [|reflexivity].
  rewrite IH. apply perm_swap.
Qed.

Lemma stable_sort_perm l : Permutation (stable_sort ltb l) l.
Proof.
  induction l as [|x l IH]; simpl; [reflexivity|].
  rewrite insert_sorted_perm. now apply perm_skip.
Qed.

Lemma stable_sort_Forall (P : A -> Prop) l :
  Forall P l -> Forall P (stable_sort ltb l).
Proof.
  intros H. eapply Permutation_Forall; [|exact H].
  symmetry. apply stable_sort_perm.
Qed.

Lemma stable_sort_In x l : In x (stable_sort ltb l) <-> In x l.
Proof.
  split; apply Permutation_in;
    [apply stable_sort_perm | symmetry; apply stable_sort_perm].
Qed.

Hypothesis ltb_asym : forall x y, ltb x y = true -> ltb y x = false.

Lemma insert_sorted_HdRel y x l :
  (not_after ltb) y x -> HdRel (not_after ltb) y l ->
  HdRel (not_after ltb) y (insert_sorted ltb x l).
Proof.
  intros Hyx Hl. destruct l as [|z l]; simpl; [now constructor|].
  inversion Hl; subst. destruct (ltb z x); now constructor.
Qed.

Lemma insert_sorted_Sorted x l :
  Sorted (not_after ltb) l -> Sorted (not_after ltb) (insert_sorted ltb x l).
Proof.
  induction 1 as [|y l Hs IH Hhd]; simpl; [repeat constructor|].
  destruct (ltb y x) eqn:Hyx.
  - constructor; [exact IH|].
    apply insert_sorted_HdRel; [apply ltb_asym, Hyx | exact Hhd].
  - constructor; [now constructor|]. constructor. exact Hyx.
Qed.

Lemma stable_sort_Sorted l : Sorted (not_after ltb) (stable_sort ltb l).
Proof.
  induction l as [|x l IH]; simpl; [constructor|].
  apply insert_sorted_Sorted, IH.
Qed.
End StableSortFacts.

Lemma Sorted_weaken {A : Type} (R R' : A -> A -> Prop) (l : list A) :
  (forall a b, R a b -> R' a b) -> Sorted R l -> Sorted R' l.
Proof.
  intros HR. induction 1 as [|x l Hs IH Hhd]; constructor; [exact IH|].
  destruct Hhd; constructor; auto.
Qed.

(** ** The occurrence mapping *)

Section BuildOccurrences.
Import Schedule Projection.

Variable today : date.
Variable max_days : Z.

Lemma setdefault_append_windowed k item m :
  within_window today max_days item ->
  all_within_window today max_days m ->
  all_within_window today max_days (setdefault_append k item m).
Proof.
  intros Hitem. induction m as [|[k' l'] m IH]; intros Hm k0 l0; simpl.
  - intros [[= <- <-] | []]. repeat constructor. exact Hitem.
  - destruct (String.eqb k' k).
    + intros [[= <- <-] | Hin].
      * apply Forall_app; split; [|repeat constructor; exact Hitem].
        apply (Hm k' l'). now left.
      * apply (Hm k0 l0). now right.
    + intros [[= <- <-] | Hin].
      * apply (Hm k' l'). now left.
      * apply (IH (fun k1 l1 H1 => Hm k1 l1 (or_intror H1)) k0 l0 Hin).
Qed.

Lemma append_occurrences_windowed k amt yielded :
  Forall (fun d => within_window today max_days (d, amt)) yielded ->
  forall m,
    all_within_window today max_days m ->
    all_within_window today max_days
      (append_occurrences today k amt yielded m).
Proof.
  induction 1 as [|d yielded Hd _ IH]; intros m Hm; simpl; [exact Hm|].
  destruct (date_ltb d today); [now apply IH|].
  apply IH. now apply setdefault_append_windowed.
Qed.

Lemma yielded_windowed start f amt ds fin :
  valid_date start = true ->
  occurrences_within_window today start f max_days = (ds, fin) ->
  fin <> Unfinished
  /\ Forall (fun d => within_window today max_days (d, amt)) ds.
Proof.
  intros Hv Heq.
  destruct (occurrences_with_ends advance_date today start f max_days
              advance_date_rule Hv) as (ds' & fin' & Heq' & Hfin & Hin & _).
  unfold occurrences_within_window in Heq. rewrite Heq in Heq'.
  injection Heq' as <- <-. split; [exact Hfin|].
  apply Forall_forall. intros d Hd. apply Hin, Hd.
Qed.

Lemma collect_windowed scheduled :
  forall m m',
    collect today scheduled max_days m = Return m' ->
    all_within_window today max_days m ->
    all_within_window today max_days m'.
Proof.
  induction scheduled as [|txn rest IH]; intros m m'; simpl.
  - intros [= <-]. auto.
  - destruct (account_id txn) as [k|]; [|apply IH].
    destruct (String.eqb k ""); [apply IH|].
    destruct (txn_amount txn =? 0); [apply IH|].
    destruct (date_next txn) as [[y mo] d].
    destruct (new_date y mo d) as [start| |] eqn:Hstart; simpl;
      try discriminate.
    apply new_date_valid in Hstart. destruct Hstart as [Hv _].
    destruct (occurrences_within_window today start _ max_days)
      as [ds fin] eqn:Hgen.
    destruct (yielded_windowed _ _ (txn_amount txn) _ _ Hv Hgen)
      as [_ Hds].
    destruct fin; try discriminate.
    intros Hc Hm. eapply IH; [exact Hc|].
    now apply append_occurrences_windowed.
Qed.

Lemma collect_terminates scheduled :
  forall m, collect today scheduled max_days m <> OutOfFuel.
Proof.
  induction scheduled as [|txn rest IH]; intros m; simpl; [discriminate|].
  destruct (account_id txn) as [k|]; [|apply IH].
  destruct (String.eqb k ""); [apply IH|].
  destruct (txn_amount txn =? 0); [apply IH|].
  destruct (date_next txn) as [[y mo] d].
  destruct (new_date y mo d) as [start| |] eqn:Hstart; simpl;
    try discriminate.
  - apply new_date_valid in Hstart. destruct Hstart as [Hv _].
    destruct (occurrences_within_window today start _ max_days)
      as [ds fin] eqn:Hgen.
    destruct (yielded_windowed _ _ 0 _ _ Hv Hgen) as [Hfin _].
    destruct fin; [apply IH | discriminate | contradiction].
  - revert Hstart. unfold new_date. destruct (check_date_fields y mo d);
      discriminate.
Qed.

Lemma sort_by_date_ascending l : date_ascending (sort_by_date l).
Proof.
  unfold date_ascending, sort_by_date.
  eapply Sorted_weaken; [|apply stable_sort_Sorted].
  - unfold not_after, date_leb. intros a b ->. reflexivity.
  - intros [a ?] [b ?]. simpl. destruct a, b. date_order.
Qed.
End BuildOccurrences.

(** [build_occurrences] returns or raises: the budget of the generator
    never runs out under it. *)
Lemma build_occurrences_terminates today scheduled max_window :
  Schedule.build_occurrences today scheduled max_window <> OutOfFuel.
Proof.
  unfold Schedule.build_occurrences.
  pose proof (collect_terminates today max_window scheduled []) as H.
  destruct (Schedule.collect today scheduled max_window []);
    simpl; [discriminate | discriminate | contradiction].
Qed.

(** C5, as amended: in the mapping returned by [build_occurrences], each
    account's occurrence list is in ascending date order, equal dates
    allowed, and every date in it lies within [today, today+horizon]. *)
Theorem build_occurrences_ascending (today : date)
    (scheduled : list Schedule.scheduled_txn) (max_window : Z)
    (occurrences : dict (list occurrence)) :
  Schedule.build_occurrences today scheduled max_window
  = Return occurrences ->
  forall k l,
    In (k, l) occurrences ->
    Projection.date_ascending l
    /\ Forall (Schedule.within_window today max_window) l.
Proof.
  unfold Schedule.build_occurrences.
  destruct (Schedule.collect today scheduled max_window []) as [m| |] eqn:Hc;
    simpl; try discriminate.
  intros [= <-] k l Hin.
  apply in_map_iff in Hin. destruct Hin as ([k0 l0] & [= <- <-] & Hin).
  simpl. split.
  - apply sort_by_date_ascending.
  - apply stable_sort_Forall.
    apply (collect_windowed today max_window scheduled [] m Hc) with k0;
      [|exact Hin].
    intros ? ? [].
Qed.

(** Rent and a phone bill of one account, both due on the 3rd. *)
Lemma build_occurrences_ascending_witness :
  Projection.date_ascending
    [ (mkDate 2024 5 3, -90000); (mkDate 2024 5 3, -2500) ]
  /\ Forall (Schedule.within_window (mkDate 2024 5 1) 7)
       [ (mkDate 2024 5 3, -90000); (mkDate 2024 5 3, -2500) ].
Proof.
  apply (build_occurrences_ascending (mkDate 2024 5 1)
           [ Schedule.mkTxn (Some "acct") (Some (-90000)) [] (2024, 5, 3)
               (Some "monthly");
             Schedule.mkTxn (Some "acct") (Some (-2500)) [] (2024, 5, 3)
               (Some "never") ]%string
           7
           [ ("acct",
              [ (mkDate 2024 5 3, -90000); (mkDate 2024 5 3, -2500) ]) ]%string
           eq_refl "acct"%string).
  simpl. left. reflexivity.
Defined.

(** C5 as stated fails when two schedules of one account fall on the same
    day: both occurrences are kept, so the list is not strictly
    ascending. *)
Lemma build_occurrences_same_day_counterexample :
  Schedule.build_occurrences (mkDate 2024 5 1)
    [ Schedule.mkTxn (Some "acct") (Some (-90000)) [] (2024, 5, 3)
        (Some "monthly");
      Schedule.mkTxn (Some "acct") (Some (-2500)) [] (2024, 5, 3)
        (Some "never") ]%string
    7
  = Return
      [ ("acct",
         [ (mkDate 2024 5 3, -90000); (mkDate 2024 5 3, -2500) ]) ]%string
  /\ ~ Projection.date_strictly_ascending
         [ (mkDate 2024 5 3, -90000); (mkDate 2024 5 3, -2500) ].
Proof.
  split; [reflexivity|].
  intros H. inversion H as [|? ? _ Hhd]; subst.
  inversion Hhd as [|? ? Hlt]; subst. discriminate Hlt.
Qed.

(** ** Risk assessor *)

Section RiskFacts.
Import Risk.

Variable today : date.
Variable occurrences : dict (list occurrence).
Variable wins : list Z.

Lemma risk_loop_app accounts1 accounts2 :
  forall risks,
    risk_loop today (accounts1 ++ accounts2) occurrences wins risks
    = (risks' <- risk_loop today accounts1 occurrences wins risks ;;
       risk_loop today accounts2 occurrences wins risks').
Proof.
  induction accounts1 as [|a rest IH]; intros risks; simpl; [reflexivity|].
  destruct (negb (is_cash_account a)); [apply IH|].
  destruct (dict_get (id a) occurrences) as [[|o l]|]; try apply IH.
  destruct (project_windows today a (o :: l) (balance_of a) wins risks);
    simpl; [apply IH | reflexivity | reflexivity].
Qed.

Lemma risk_loop_skip a accounts risks :
  dict_get (id a) occurrences = None
  \/ dict_get (id a) occurrences = Some [] ->
  risk_loop today (a :: accounts) occurrences wins risks
  = risk_loop today accounts occurrences wins risks.
Proof.
  intros [H | H]; simpl; rewrite H; destruct (negb (is_cash_account a));
    reflexivity.
Qed.

Lemma projected_ltb_asym (a b : entry) :
  (projected a <? projected b) = true -> (projected b <? projected a) = false.
Proof. to_prop. lia. Qed.

Lemma sort_by_projected_sorted es : by_severity (sort_by_projected es).
Proof.
  unfold by_severity, sort_by_projected.
  eapply Sorted_weaken; [|apply stable_sort_Sorted].
  - unfold not_after. intros a b H. to_prop. lia.
  - apply projected_ltb_asym.
Qed.

(** In a list sorted by projected balance, position follows the order. *)
Lemma by_severity_positions es :
  by_severity es ->
  forall i j e1 e2,
    nth_error es i = Some e1 -> nth_error es j = Some e2 ->
    projected e1 < projected e2 -> (i < j)%nat.
Proof.
  intros Hs.
  apply Sorted_StronglySorted in Hs; [|intros a b c; lia].
  induction Hs as [|e es Hs IH Hall]; intros i j e1 e2 Hi Hj Hlt.
  - destruct i; discriminate.
  - destruct i as [|i], j as [|j]; simpl in *.
    + injection Hi as <-. injection Hj as <-. lia.
    + lia.
    + injection Hj as <-. apply nth_error_In in Hi.
      rewrite Forall_forall in Hall. specialize (Hall e1 Hi). lia.
    + apply -> Nat.succ_lt_mono. eapply IH; eauto.
Qed.
End RiskFacts.

(** C7: an account whose occurrence list is empty or absent adds no entry
    to any window, whatever its balance: the risk map is the one computed
    without the account, and on its own the account leaves every window
    empty. *)
Theorem compute_risk_skips_empty (today : date)
    (before after : list account) (a : account)
    (occurrences : dict (list occurrence)) (windows : list Z) :
  dict_get (id a) occurrences = None
  \/ dict_get (id a) occurrences = Some [] ->
  Risk.compute_risk today (before ++ a :: after) occurrences windows
  = Risk.compute_risk today (before ++ after) occurrences windows
  /\ Risk.compute_risk today [a] occurrences windows
     = Return (map (fun w => (w, [])) (Risk.sorted_set windows)).
Proof.
  intros Hocc. unfold Risk.compute_risk. split.
  - rewrite !risk_loop_app.
    destruct (Risk.risk_loop today before occurrences _ _) as [r| |];
      unfold bind; try reflexivity.
    now rewrite (risk_loop_skip today occurrences _ a after r Hocc).
  - rewrite (risk_loop_skip today occurrences _ a [] _ Hocc). simpl.
    f_equal. rewrite map_map. reflexivity.
Qed.

(** An overdrawn account without scheduled transactions. *)
Lemma compute_risk_skips_empty_witness :
  Risk.compute_risk (mkDate 2024 5 1)
    [ mkAccount "a1" (Some "Current") None None (Some (-25000)) ]%string
    [] [3; 7]
  = Return [ (3, []); (7, []) ].
Proof.
  apply (proj2 (compute_risk_skips_empty (mkDate 2024 5 1) [] []
                  (mkAccount "a1" (Some "Current") None None
                     (Some (-25000)))%string
                  [] [3; 7] (or_introl eq_refl))).
Defined.

(** C8: in the returned risk map every window's entries are sorted by
    projected balance, ascending; so an entry with the smaller projected
    balance, as -5000 against -2000, stands first. *)
Theorem compute_risk_sorted (today : date) (accounts : list account)
    (occurrences : dict (list occurrence)) (windows : list Z)
    (risks : list (Z * list Risk.entry)) :
  Risk.compute_risk today accounts occurrences windows = Return risks ->
  forall win es,
    In (win, es) risks ->
    Risk.by_severity es
    /\ forall i j e1 e2,
         nth_error es i = Some e1 -> nth_error es j = Some e2 ->
         Risk.projected e1 < Risk.projected e2 -> (i < j)%nat.
Proof.
  unfold Risk.compute_risk.
  destruct (Risk.risk_loop today accounts occurrences _ _) as [r| |];
    simpl; try discriminate.
  intros [= <-] win es Hin.
  apply in_map_iff in Hin. destruct Hin as ([w0 es0] & [= <- <-] & _).
  simpl.
  pose proof (sort_by_projected_sorted es0) as Hs.
  split; [exact Hs | apply by_severity_positions, Hs].
Qed.

(** Two overdrawn accounts, the worse one listed second. *)
Lemma compute_risk_sorted_witness :
  Risk.by_severity
    [ Risk.mkEntry "Bills" (-5000) 1000 7 (mkDate 2024 5 3);
      Risk.mkEntry "Daily" (-2000) 1000 7 (mkDate 2024 5 2) ]%string.
Proof.
  refine (proj1 (compute_risk_sorted (mkDate 2024 5 1)
    [ mkAccount "a1" (Some "Daily") None None (Some 1000);
      mkAccount "a2" (Some "Bills") None None (Some 1000) ]%string
    [ ("a1", [ (mkDate 2024 5 2, -3000) ]);
      ("a2", [ (mkDate 2024 5 3, -6000) ]) ]%string
    [7]
    [ (7, [ Risk.mkEntry "Bills" (-5000) 1000 7 (mkDate 2024 5 3);
            Risk.mkEntry "Daily" (-2000) 1000 7 (mkDate 2024 5 2) ]) ]%string
    _ 7 _ _)).
  - vm_compute. reflexivity.
  - simpl. left. reflexivity.
Defined.

(** ** Transfer allocator: drawing from the sources *)

Section Drawing.
Import Transfers.

Lemma sum_Z_app l1 l2 : sum_Z (l1 ++ l2) = sum_Z l1 + sum_Z l2.
Proof.
  unfold sum_Z. induction l1 as [|x l1 IH]; simpl; [reflexivity | lia].
Qed.

Lemma available_pool_cons s rest :
  available_pool (s :: rest) = Z.max 0 (available s) + available_pool rest.
Proof.
  unfold available_pool, sum_Z. simpl.
  destruct (0 <? available s) eqn:E; simpl; to_prop; lia.
Qed.

Lemma available_pool_nonneg ss : 0 <= available_pool ss.
Proof.
  induction ss as [|s rest IH]; [reflexivity|].
  rewrite available_pool_cons. lia.
Qed.

Lemma total_need_cons d rest :
  total_need (d :: rest) = Z.max 0 (need d) + total_need rest.
Proof.
  unfold total_need, sum_Z. simpl.
  destruct (0 <? need d) eqn:E; simpl; to_prop; lia.
Qed.

Lemma total_need_nonneg g : 0 <= total_need g.
Proof.
  induction g as [|d rest IH]; [reflexivity|].
  rewrite total_need_cons. lia.
Qed.

Lemma withdrawals_skip s ss ms ss' :
  withdrawals ss ms ss' -> withdrawals (s :: ss) ms (s :: ss').
Proof.
  induction 1 as [|ss ss1 ss2 m ms Hw _ IH]; [constructor|].
  econstructor; [apply withdraw_later, Hw | exact IH].
Qed.

Lemma withdrawals_app ss1 ss2 ss3 ms1 ms2 :
  withdrawals ss1 ms1 ss2 -> withdrawals ss2 ms2 ss3 ->
  withdrawals ss1 (ms1 ++ ms2) ss3.
Proof.
  induction 1 as [|ss ssa ssb m ms Hw _ IH]; intros H2; simpl; [exact H2|].
  econstructor; [exact Hw | apply IH, H2].
Qed.

(** When the pool holds the amount asked for, [draw] takes all of it, by
    withdrawals that never exceed what a source holds. *)
Lemma draw_spec d ss :
  forall remaining,
    0 <= remaining <= available_pool ss ->
    exists ss' ms,
      draw remaining d ss = (ss', ms)
      /\ withdrawals ss ms ss'
      /\ Forall (drawn_for d) ms
      /\ sum_Z (map amount ms) = remaining
      /\ available_pool ss' = available_pool ss - remaining.
Proof.
  induction ss as [|s rest IH]; intros remaining Hr.
  - exists [], []. unfold available_pool, sum_Z in *. simpl in *.
    repeat split; try constructor; lia.
  - rewrite available_pool_cons in Hr. simpl.
    destruct (remaining <=? 0) eqn:Hz; to_prop.
    { exists (s :: rest), []. repeat split; try constructor.
      - unfold sum_Z; simpl; lia.
      - lia. }
    destruct (available s <=? 0) eqn:Ha; to_prop.
    { destruct (IH remaining) as (ss' & ms & Heq & Hw & Hall & Hsum & Hpool);
        [lia|].
      rewrite Heq. exists (s :: ss'), ms. repeat split; auto.
      - apply withdrawals_skip, Hw.
      - rewrite !available_pool_cons. lia. }
    destruct (Z.min remaining (available s) <=? 0) eqn:Hm; to_prop; [lia|].
    pose proof (available_pool_nonneg rest) as Hnn.
    destruct (IH (remaining - Z.min remaining (available s)))
      as (ss' & ms & Heq & Hw & Hall & Hsum & Hpool); [lia|].
    rewrite Heq. eexists _, _. split; [reflexivity|]. repeat split.
    + econstructor.
      * apply withdraw_here; simpl; [reflexivity | lia].
      * simpl. apply withdrawals_skip, Hw.
    + constructor; [|exact Hall]. unfold drawn_for; simpl. auto.
    + unfold sum_Z in *. simpl. lia.
    + rewrite !available_pool_cons. simpl. lia.
Qed.

Lemma combine_needs g :
  combine (map need g) g = map (fun d => (need d, d)) g.
Proof. induction g as [|d g IH]; simpl; [reflexivity | now rewrite IH]. Qed.

Lemma execute_spec g :
  Forall (fun d => 0 < need d) g ->
  forall ss,
    total_need g <= available_pool ss ->
    exists ss' ms,
      execute (map (fun d => (need d, d)) g) ss = (ss', ms)
      /\ withdrawals ss ms ss'
      /\ covered_by g ms
      /\ Forall (fun m => 0 < amount m) ms
      /\ sum_Z (map amount ms) = total_need g
      /\ available_pool ss' = available_pool ss - total_need g.
Proof.
  induction 1 as [|d g Hd _ IH]; intros ss Hpool.
  - exists ss, []. repeat split; try constructor.
    + exists []. split; [reflexivity | constructor].
    + unfold total_need, sum_Z. simpl. lia.
  - rewrite total_need_cons in *. simpl.
    pose proof (total_need_nonneg g) as Hnn.
    destruct (need d <=? 0) eqn:Hz; to_prop; [lia|].
    destruct (draw_spec d ss (need d))
      as (ss1 & ms1 & Heq1 & Hw1 & Hall1 & Hsum1 & Hpool1); [lia|].
    rewrite Heq1.
    destruct (IH ss1)
      as (ss2 & ms2 & Heq2 & Hw2 & (parts & Hparts & Hcov) & Hpos2
          & Hsum2 & Hpool2); [lia|].
    rewrite Heq2. exists ss2, (ms1 ++ ms2). split; [reflexivity|].
    repeat split.
    + eapply withdrawals_app; eauto.
    + exists (ms1 :: parts). split; [simpl; now rewrite Hparts|].
      constructor; [|exact Hcov]. split; [|exact Hsum1].
      eapply Forall_impl; [|exact Hall1]. unfold drawn_for. tauto.
    + apply Forall_app; split; [|exact Hpos2].
      eapply Forall_impl; [|exact Hall1]. unfold drawn_for. tauto.
    + rewrite map_app, sum_Z_app, Hsum1, Hsum2. lia.
    + lia.
Qed.
End Drawing.

(** ** Transfer allocator: one group *)

Section GroupFacts.
Import Transfers.

Lemma proportional_full g total :
  0 < total ->
  map (fun d => Z.min (need d) (total * need d / total)) g = map need g.
Proof.
  intros Ht. apply map_ext. intros d.
  rewrite (Z.mul_comm total), Z.div_mul by lia. apply Z.min_id.
Qed.

(** With every member at its need already, the remainder loop has no room
    to fill and changes nothing. *)
Lemma distribute_full order allocations :
  Forall (fun p => nth (fst p) allocations 0 = need (snd p)) order ->
  forall remainder, distribute order allocations remainder = allocations.
Proof.
  induction 1 as [|[i d] order Hp _ IH]; intros remainder; simpl;
    [reflexivity|].
  destruct (remainder <=? 0); [reflexivity|].
  simpl in Hp. rewrite Hp, Z.sub_diag. simpl. apply IH.
Qed.

Lemma enumerate_from_needs g :
  forall pre,
    Forall (fun p => nth (fst p) (map need (pre ++ g)) 0 = need (snd p))
      (combine (seq (List.length pre) (List.length g)) g).
Proof.
  induction g as [|d g IH]; intros pre; simpl; constructor.
  - simpl. rewrite map_app, app_nth2; rewrite length_map; [|lia].
    now rewrite Nat.sub_diag.
  - specialize (IH (pre ++ [d])).
    rewrite length_app, Nat.add_1_r, <- app_assoc in IH. exact IH.
Qed.

Lemma allocate_full g pool :
  0 < total_need g -> total_need g <= pool ->
  allocate g (Z.min pool (total_need g)) (total_need g) = map need g.
Proof.
  intros Ht Hp. unfold allocate.
  rewrite Z.min_r by lia. rewrite proportional_full by lia.
  apply distribute_full, stable_sort_Forall.
  exact (enumerate_from_needs g []).
Qed.

(** A group short of surplus is recorded and nothing else happens. *)
Lemma process_group_short ss dd g :
  0 < total_need g -> available_pool ss < total_need g ->
  process_group ss dd g
  = (ss, [], [mkUncovered dd (total_need g) (available_pool ss) g]).
Proof.
  intros Ht Hp. unfold process_group.
  destruct (available_pool ss <=? 0) eqn:E1; simpl.
  - destruct (0 <? total_need g) eqn:E2; [reflexivity | to_prop; lia].
  - destruct (total_need g <=? 0) eqn:E2; [to_prop; lia|].
    destruct (available_pool ss <? total_need g) eqn:E3;
      [reflexivity | to_prop; lia].
Qed.

(** A group within the pool is executed at every member's need. *)
Lemma process_group_covered ss dd g :
  0 < total_need g -> total_need g <= available_pool ss ->
  process_group ss dd g
  = (let '(ss', ms) := execute (map (fun d => (need d, d)) g) ss in
     (ss', ms, [])).
Proof.
  intros Ht Hp. unfold process_group.
  destruct (available_pool ss <=? 0) eqn:E1; [to_prop; lia|].
  destruct (total_need g <=? 0) eqn:E2; [to_prop; lia|].
  destruct (available_pool ss <? total_need g) eqn:E3; [to_prop; lia|].
  simpl. now rewrite allocate_full, combine_needs.
Qed.

Lemma process_group_idle ss dd g :
  total_need g <= 0 -> process_group ss dd g = (ss, [], []).
Proof.
  intros Ht. unfold process_group.
  destruct (total_need g <=? 0) eqn:E2; [|to_prop; lia].
  rewrite orb_true_r.
  destruct (0 <? total_need g) eqn:E3; [to_prop; lia | reflexivity].
Qed.

Lemma withdraw_names ss m ss' :
  withdraw ss m ss' ->
  map s_name ss' = map s_name ss /\ In (m_from m) (map s_name ss).
Proof.
  induction 1 as [s rest m Hn _ | s rest rest' m _ [IH1 IH2]]; simpl.
  - split; [reflexivity | left; now rewrite Hn].
  - split; [now rewrite IH1 | now right].
Qed.

Lemma withdrawals_names ss ms ss' :
  withdrawals ss ms ss' ->
  map s_name ss' = map s_name ss
  /\ Forall (fun m => In (m_from m) (map s_name ss)) ms.
Proof.
  induction 1 as [|ss ss1 ss2 m ms Hw _ [IH1 IH2]]; [split; auto|].
  apply withdraw_names in Hw. destruct Hw as [Hn Hin].
  split; [congruence|]. constructor; [exact Hin|].
  now rewrite <- Hn.
Qed.

Lemma covered_by_members g ms :
  covered_by g ms ->
  Forall (fun m => exists d, In d g /\ m_to m = d_name d) ms.
Proof.
  intros (parts & -> & Hcov).
  induction Hcov as [|d part g parts [Hall _] _ IH]; simpl; [constructor|].
  apply Forall_app; split.
  - eapply Forall_impl; [|exact Hall].
    intros m [Hto _]. exists d. split; [now left | exact Hto].
  - eapply Forall_impl; [|exact IH].
    intros m (d' & Hin & Hto). exists d'. split; [now right | exact Hto].
Qed.

(** What a pass of the outer loop does to a group of positive needs. *)
Lemma process_group_moves ss dd g ss' ms us :
  Forall (fun d => 0 < need d) g ->
  process_group ss dd g = (ss', ms, us) ->
  map s_name ss' = map s_name ss
  /\ Forall (fun m => 0 < amount m
                      /\ In (m_from m) (map s_name ss)
                      /\ exists d, In d g /\ m_to m = d_name d) ms.
Proof.
  intros Hpos Heq.
  destruct (Z_le_gt_dec (total_need g) 0) as [Hz | Hz].
  { rewrite process_group_idle in Heq by exact Hz.
    injection Heq as <- <- <-. split; [reflexivity | constructor]. }
  destruct (Z_lt_le_dec (available_pool ss) (total_need g)) as [Hs | Hs].
  { rewrite process_group_short in Heq by lia.
    injection Heq as <- <- <-. split; [reflexivity | constructor]. }
  rewrite process_group_covered in Heq by lia.
  destruct (execute_spec g Hpos ss Hs)
    as (ss1 & ms1 & Hex & Hw & Hcov & Hamt & _).
  rewrite Hex in Heq. injection Heq as <- <- <-.
  apply withdrawals_names in Hw. destruct Hw as [Hn Hfrom].
  apply covered_by_members in Hcov.
  split; [exact Hn|].
  rewrite Forall_forall in *. intros m Hm. auto.
Qed.
End GroupFacts.

(** ** Transfer allocator: the pass over the groups *)

Section AllocationPass.
Import Transfers.

Lemma span_group_spec dd l :
  forall g r,
    span_group dd l = (g, r) ->
    l = g ++ r /\ Forall (fun d => drop_date d = dd) g.
Proof.
  induction l as [|d l IH]; intros g r; simpl.
  - intros [= <- <-]. split; [reflexivity | constructor].
  - destruct (date_eqb (drop_date d) dd) eqn:E.
    + destruct (span_group dd l) as [g' r'].
      intros [= <- <-]. destruct (IH g' r' eq_refl) as [-> Hall].
      split; [reflexivity|]. constructor; [|exact Hall].
      now apply date_eqb_eq.
    + intros [= <- <-]. split; [reflexivity | constructor].
Qed.

Lemma span_group_shorter d l g r :
  span_group (drop_date d) (d :: l) = (g, r) ->
  (List.length r <= List.length l)%nat.
Proof.
  simpl.
  assert (date_eqb (drop_date d) (drop_date d) = true) as ->
    by now apply date_eqb_eq.
  destruct (span_group (drop_date d) l) as [g' r'] eqn:E.
  intros [= <- <-]. apply span_group_spec in E. destruct E as [-> _].
  rewrite length_app. lia.
Qed.

(** One unit of budget per deficit is enough for the outer loop. *)
Lemma transfer_steps_terminates fuel :
  forall deficits ss,
    (List.length deficits <= fuel)%nat ->
    exists steps, transfer_steps fuel deficits ss = Return steps.
Proof.
  induction fuel as [|fuel IH]; intros [|d l] ss Hlen; simpl in *;
    try (eexists; reflexivity); try lia.
  pose proof (span_group_shorter d l) as Hshort. simpl in Hshort.
  destruct (date_eqb (drop_date d) (drop_date d)).
  - destruct (span_group (drop_date d) l) as [g r].
    specialize (Hshort _ _ eq_refl).
    destruct (process_group ss (drop_date d) (d :: g)) as [[ss' ms] us].
    destruct (IH r ss') as [steps ->]; [lia|].
    eexists; reflexivity.
  - specialize (Hshort _ _ eq_refl). simpl in Hshort.
    destruct (process_group ss (drop_date d) []) as [[ss' ms] us].
    destruct (IH (d :: l) ss') as [steps ->]; [simpl; lia|].
    eexists; reflexivity.
Qed.

(** The loop with accumulators returns the moves and the uncovered groups
    of its passes, in order. *)
Lemma transfer_loop_steps fuel :
  forall deficits ss moves uncovered,
    transfer_loop fuel deficits ss moves uncovered
    = (steps <- transfer_steps fuel deficits ss ;;
       Return (moves ++ flat_map emitted steps,
               uncovered ++ flat_map recorded steps)).
Proof.
  induction fuel as [|fuel IH]; intros [|d l] ss moves uncovered; simpl;
    rewrite ?app_nil_r; try reflexivity.
  destruct (if date_eqb (drop_date d) (drop_date d) then _ else _)
    as [g r].
  destruct (process_group ss (drop_date d) g) as [[ss' ms] us].
  rewrite IH.
  destruct (transfer_steps fuel r ss') as [steps| |]; simpl;
    [|reflexivity|reflexivity].
  now rewrite !app_assoc.
Qed.

Lemma transfer_steps_passes fuel :
  forall deficits ss steps,
    Forall (fun d => 0 < need d) deficits ->
    transfer_steps fuel deficits ss = Return steps ->
    Forall (pass_of deficits ss) steps.
Proof.
  induction fuel as [|fuel IH]; intros [|d l] ss steps Hpos; simpl;
    try discriminate; try (intros [= <-]; constructor).
  destruct (if date_eqb (drop_date d) (drop_date d) then _ else _)
    as [g r] eqn:Hspan.
  change (span_group (drop_date d) (d :: l) = (g, r)) in Hspan.
  apply span_group_spec in Hspan. destruct Hspan as [Hl Hdd].
  destruct (process_group ss (drop_date d) g) as [[ss' ms] us] eqn:Hpg.
  destruct (transfer_steps fuel r ss') as [steps'| |] eqn:Hrest;
    simpl; try discriminate.
  intros [= <-].
  rewrite Hl in Hpos. apply Forall_app in Hpos. destruct Hpos as [Hg Hr].
  destruct (process_group_moves _ _ _ _ _ _ Hg Hpg) as [Hnames _].
  constructor.
  - unfold pass_of; simpl. split; [exists (drop_date d); auto|].
    split; [|reflexivity]. rewrite Hl. apply incl_appl, incl_refl.
  - specialize (IH r ss' steps' Hr Hrest).
    eapply Forall_impl; [|exact IH].
    intros st (Hp & Hincl & Hn). split; [exact Hp|]. split.
    + rewrite Hl. apply incl_appr, Hincl.
    + congruence.
Qed.

Variable today cutoff : date.
Variable accounts : list account.
Variable occurrences : dict (list occurrence).

Lemma classify_spec :
  forall ss ds,
    classify today cutoff accounts occurrences = (ss, ds) ->
    Forall (fun s => exists a,
              In a accounts /\ classified_surplus occurrences cutoff a
              /\ s_name s = name_or_empty a) ss
    /\ Forall (fun d => 0 < need d /\ exists a,
                 In a accounts /\ classified_deficit occurrences cutoff a
                 /\ d_name d = name_or_empty a) ds.
Proof.
  unfold classified_surplus, classified_deficit.
  induction accounts as [|a rest IH]; intros ss ds; simpl.
  - intros [= <- <-]. split; constructor.
  - destruct (classify today cutoff rest occurrences) as [ss' ds'].
    destruct (IH ss' ds' eq_refl) as [Hs Hd].
    assert (Hs' : Forall (fun s => exists a0,
              (a = a0 \/ In a0 rest)
              /\ (is_cash_account a0 = true
                  /\ 0 < fst (projection_of occurrences cutoff a0))
              /\ s_name s = name_or_empty a0) ss').
    { eapply Forall_impl; [|exact Hs].
      intros s (a0 & ? & ? & ?). exists a0. auto. }
    assert (Hd' : Forall (fun d => 0 < need d /\ exists a0,
              (a = a0 \/ In a0 rest)
              /\ (is_cash_account a0 = true
                  /\ fst (projection_of occurrences cutoff a0) < 0)
              /\ d_name d = name_or_empty a0) ds').
    { eapply Forall_impl; [|exact Hd].
      intros d (? & a0 & ? & ? & ?). split; [assumption|].
      exists a0. auto. }
    destruct (is_cash_account a) eqn:Hcash; simpl.
    2:{ intros [= <- <-]. auto. }
    destruct (projection_of occurrences cutoff a) as [proj drop] eqn:Hp.
    destruct (0 <? proj) eqn:E1; [|destruct (proj <? 0) eqn:E2];
      intros [= <- <-]; to_prop; split; auto.
    + constructor; [|exact Hs'].
      exists a. rewrite Hp. simpl. auto.
    + constructor; [|exact Hd'].
      simpl. split; [lia|]. exists a. rewrite Hp. simpl. auto.
Qed.

Lemma sorted_entries_spec ss ds :
  sorted_entries today cutoff accounts occurrences = (ss, ds) ->
  Forall (fun s => exists a,
            In a accounts /\ classified_surplus occurrences cutoff a
            /\ s_name s = name_or_empty a) ss
  /\ Forall (fun d => 0 < need d /\ exists a,
               In a accounts /\ classified_deficit occurrences cutoff a
               /\ d_name d = name_or_empty a) ds.
Proof.
  unfold sorted_entries.
  destruct (classify today cutoff accounts occurrences) as [ss0 ds0] eqn:E.
  intros [= <- <-]. destruct (classify_spec ss0 ds0 E) as [Hs Hd].
  split; apply stable_sort_Forall; assumption.
Qed.
End AllocationPass.

Section ComputeTransfers.
Import Transfers.

Variable today : date.
Variable accounts : list account.
Variable occurrences : dict (list occurrence).
Variable windows : list Z.

(** [compute_transfers] returns the moves and the uncovered groups of its
    passes, in order. *)
Lemma compute_transfers_steps :
  compute_transfers today accounts occurrences windows
  = (steps <- allocation_steps today accounts occurrences windows ;;
     Return (flat_map emitted steps, flat_map recorded steps)).
Proof.
  unfold compute_transfers, allocation_steps.
  destruct windows as [|w ws]; [reflexivity|].
  destruct (add_days today (max_window w ws)) as [cutoff| |]; simpl;
    try reflexivity.
  destruct (sorted_entries today cutoff accounts occurrences) as [ss ds].
  apply transfer_loop_steps.
Qed.

(** The budget of the outer loop never runs out. *)
Lemma compute_transfers_terminates :
  compute_transfers today accounts occurrences windows <> OutOfFuel.
Proof.
  rewrite compute_transfers_steps. unfold allocation_steps.
  destruct windows as [|w ws]; [discriminate|].
  destruct (add_days today (max_window w ws)) as [cutoff| |] eqn:E; simpl.
  - destruct (sorted_entries today cutoff accounts occurrences) as [ss ds].
    destruct (transfer_steps_terminates (List.length ds) ds ss (le_n _))
      as [steps ->].
    discriminate.
  - discriminate.
  - revert E. unfold add_days, fromordinal, new_date.
    repeat match goal with
    | |- context [if ?b then _ else _] => destruct b
    | |- context [let '(_, _) := ?p in _] => destruct p
    end; discriminate.
Qed.

(** Every pass of [compute_transfers], with where its entries come
    from. *)
Lemma allocation_steps_passes steps st :
  allocation_steps today accounts occurrences windows = Return steps ->
  In st steps ->
  exists cutoff ss ds,
    sorted_entries today cutoff accounts occurrences = (ss, ds)
    /\ pass_of ds ss st.
Proof.
  unfold allocation_steps.
  destruct windows as [|w ws]; [intros [= <-] []|].
  destruct (add_days today (max_window w ws)) as [cutoff| |]; simpl;
    try discriminate.
  destruct (sorted_entries today cutoff accounts occurrences)
    as [ss ds] eqn:E.
  intros Hsteps Hin. exists cutoff, ss, ds. split; [exact E|].
  destruct (sorted_entries_spec _ _ _ _ _ _ E) as [_ Hd].
  assert (Hpos : Forall (fun d => 0 < need d) ds)
    by (eapply Forall_impl; [|exact Hd]; intros d [? _]; assumption).
  pose proof (transfer_steps_passes _ _ _ _ Hpos Hsteps) as Hall.
  rewrite Forall_forall in Hall. apply Hall, Hin.
Qed.

Lemma pass_positive_needs steps st :
  allocation_steps today accounts occurrences windows = Return steps ->
  In st steps ->
  Forall (fun d => 0 < need d) (group st).
Proof.
  intros Hsteps Hin.
  destruct (allocation_steps_passes steps st Hsteps Hin)
    as (cutoff & ss & ds & E & _ & Hincl & _).
  destruct (sorted_entries_spec _ _ _ _ _ _ E) as [_ Hd].
  rewrite Forall_forall in *. intros d Hg.
  apply (Hd d (Hincl d Hg)).
Qed.
End ComputeTransfers.



(** C10: an account is never classified both as a surplus and as a
    deficit; every move of [compute_transfers] has a strictly positive
    amount, is from an account classified as a surplus and to an account
    classified as a deficit, and these two are different accounts. *)
Theorem moves_between_distinct_accounts (today : date)
    (accounts : list account) (occurrences : dict (list occurrence))
    (windows : list Z) (moves : list Transfers.move)
    (uncovered : list Transfers.uncovered_group) :
  Transfers.compute_transfers today accounts occurrences windows
  = Return (moves, uncovered) ->
  (forall cutoff a,
      ~ (Transfers.classified_surplus occurrences cutoff a
         /\ Transfers.classified_deficit occurrences cutoff a))
  /\ forall m,
       In m moves ->
       0 < Transfers.amount m
       /\ exists cutoff a_from a_to,
            In a_from accounts /\ In a_to accounts
            /\ Transfers.classified_surplus occurrences cutoff a_from
            /\ Transfers.classified_deficit occurrences cutoff a_to
            /\ Transfers.m_from m = Transfers.name_or_empty a_from
            /\ Transfers.m_to m = Transfers.name_or_empty a_to
            /\ a_from <> a_to.
Proof.
  intros Hct. split.
  { unfold Transfers.classified_surplus, Transfers.classified_deficit.
    intros cutoff a [[_ H1] [_ H2]]. lia. }
  rewrite compute_transfers_steps in Hct.
  destruct (Transfers.allocation_steps today accounts occurrences windows)
    as [steps| |] eqn:Hsteps; simpl in Hct; try discriminate.
  injection Hct as <- <-. intros m Hm.
  apply in_flat_map in Hm. destruct Hm as (st & Hin & Hm).
  pose proof (pass_positive_needs _ _ _ _ _ _ Hsteps Hin) as Hpos.
  destruct (allocation_steps_passes _ _ _ _ _ _ Hsteps Hin)
    as (cutoff & ss & ds & E & (dd & _ & Hpg) & Hincl & Hnames).
  destruct (process_group_moves _ _ _ _ _ _ Hpos Hpg) as [_ Hmoves].
  rewrite Forall_forall in Hmoves.
  destruct (Hmoves m Hm) as (Hamt & Hfrom & d & Hd & Hto).
  split; [exact Hamt|].
  destruct (sorted_entries_spec _ _ _ _ _ _ E) as [Hs Hds].
  rewrite Forall_forall in Hs, Hds.
  rewrite Hnames in Hfrom. apply in_map_iff in Hfrom.
  destruct Hfrom as (s & Hsn & Hsin).
  destruct (Hs s Hsin) as (a_from & Hain & Hcs & Hname).
  destruct (Hds d (Hincl d Hd)) as (_ & a_to & Hain' & Hcd & Hname').
  exists cutoff, a_from, a_to.
  do 6 (split; [assumption || congruence|]).
  intros ->.
  unfold Transfers.classified_surplus, Transfers.classified_deficit in *.
  lia.
Qed.



(** The same two deficits against surpluses of 7000 and 5000: three moves,
    the second deficit drawn from both sources. *)
Lemma moves_between_distinct_accounts_witness :
  let dd := mkDate 2024 5 2 in
  let accounts :=
    [ mkAccount "x" (Some "X") None None (Some 0);
      mkAccount "y" (Some "Y") None None (Some 0);
      mkAccount "z" (Some "Z") None None (Some 7000);
      mkAccount "w" (Some "W") None None (Some 5000) ]%string in
  let occurrences :=
    [ ("x", [ (dd, -4000) ]); ("y", [ (dd, -6000) ]) ]%string in
  let m := Transfers.mkMove "W" "X" 3000 dd in
  0 < Transfers.amount m
  /\ exists cutoff a_from a_to,
       In a_from accounts /\ In a_to accounts
       /\ Transfers.classified_surplus occurrences cutoff a_from
       /\ Transfers.classified_deficit occurrences cutoff a_to
       /\ Transfers.m_from m = Transfers.name_or_empty a_from
       /\ Transfers.m_to m = Transfers.name_or_empty a_to
       /\ a_from <> a_to.
Proof.
  intros dd accounts occurrences m.
  refine (proj2 (moves_between_distinct_accounts (mkDate 2024 5 1)
                   accounts occurrences [7]
                   [ Transfers.mkMove "Z" "Y" 6000 dd;
                     Transfers.mkMove "Z" "X" 1000 dd;
                     m ]
                   [] _) m _).
  - reflexivity.
  - simpl. right. right. left. reflexivity.
Defined.

Example spec_end_to_end_cover :
  Transfers.compute_transfers (mkDate 2024 5 1)
    [ mkAccount "a" (Some "A") None None (Some 10000);
      mkAccount "b" (Some "B") None None (Some 20000) ]%string
    [ ("a", [ (mkDate 2024 5 2, -15000) ]) ]%string
    [7]
  = Return ([ Transfers.mkMove "B" "A" 5000 (mkDate 2024 5 2) ], []).
Proof. reflexivity. Qed.

Example risk_order_example :
  Risk.compute_risk (mkDate 2024 5 1)
    [ mkAccount "a1" (Some "Daily") None None (Some 1000);
      mkAccount "a2" (Some "Bills") None None (Some 1000) ]%string
    [ ("a1", [ (mkDate 2024 5 2, -3000) ]);
      ("a2", [ (mkDate 2024 5 3, -6000) ]) ]%string
    [7]
  = Return
      [ (7, [ Risk.mkEntry "Bills" (-5000) 1000 7 (mkDate 2024 5 3);
              Risk.mkEntry "Daily" (-2000) 1000 7 (mkDate 2024 5 2) ]) ]%string.
Proof. reflexivity. Qed.

(** * Further properties *)

(** ** The calendar: ordinals and dates *)

Lemma is_leap_true y :
  is_leap y = true <-> y mod 4 = 0 /\ (y mod 100 <> 0 \/ y mod 400 = 0).
Proof. unfold is_leap. to_prop. tauto. Qed.

Lemma is_leap_false y :
  is_leap y = false <-> y mod 4 <> 0 \/ (y mod 100 = 0 /\ y mod 400 <> 0).
Proof. unfold is_leap. to_prop. tauto. Qed.

Lemma days_before_year_succ y :
  days_before_year (y + 1)
  = days_before_year y + 365 + (if is_leap y then 1 else 0).
Proof.
  unfold days_before_year.
  destruct (is_leap y) eqn:E;
    [apply is_leap_true in E | apply is_leap_false in E];
    Z.to_euclidean_division_equations; lia.
Qed.

Lemma days_before_year_mono y y' :
  y <= y' -> days_before_year y <= days_before_year y'.
Proof.
  unfold days_before_year. intros H.
  Z.to_euclidean_division_equations. lia.
Qed.

Lemma month_cases m :
  1 <= m <= 12 ->
  m = 1 \/ m = 2 \/ m = 3 \/ m = 4 \/ m = 5 \/ m = 6 \/
  m = 7 \/ m = 8 \/ m = 9 \/ m = 10 \/ m = 11 \/ m = 12.
Proof. lia. Qed.

(** The day of the year, from 0, to month and day: the tail of [_ord2ymd]. *)
Lemma month_of_offset (leap : bool) (o : Z) :
  0 <= o < 365 + (if leap then 1 else 0) ->
  let m := Z.shiftr (o + 50) 5 in
  let preceding := DAYS_BEFORE_MONTH m + (if (2 <? m) && leap then 1 else 0) in
  let '(m1, d1) :=
    if o <? preceding then
      (m - 1,
       o - (preceding
            - (DAYS_IN_MONTH (m - 1)
               + (if (m - 1 =? 2) && leap then 1 else 0))) + 1)
    else (m, o - preceding + 1) in
  1 <= m1 <= 12
  /\ 1 <= d1 <= DAYS_IN_MONTH m1 + (if (m1 =? 2) && leap then 1 else 0)
  /\ DAYS_BEFORE_MONTH m1 + (if (2 <? m1) && leap then 1 else 0) + d1 = o + 1.
Proof.
  intros Ho. cbv zeta.
  rewrite Z.shiftr_div_pow2 by lia. change (2 ^ 5) with 32.
  assert (Hm : 1 <= (o + 50) / 32 <= 12)
    by (destruct leap; Z.to_euclidean_division_equations; lia).
  assert (Hq : 32 * ((o + 50) / 32) <= o + 50 < 32 * ((o + 50) / 32) + 32)
    by (Z.to_euclidean_division_equations; lia).
  pose proof (month_cases _ Hm) as Hc.
  generalize dependent ((o + 50) / 32). intros m Hm Hq Hc.
  each_month Hc; destruct leap; table_lookup;
    match goal with
    | |- context [o <? ?p] =>
        destruct (o <? p) eqn:E'; to_prop; table_lookup; lia
    end.
Qed.

Lemma is_leap_cycle a b c e :
  0 <= b <= 3 -> 0 <= c <= 24 -> 0 <= e <= 3 ->
  is_leap (a * 400 + 1 + b * 100 + c * 4 + e)
  = (e =? 3) && (negb (c =? 24) || (b =? 3)).
Proof.
  intros Hb Hc He.
  destruct ((e =? 3) && (negb (c =? 24) || (b =? 3))) eqn:E.
  - apply is_leap_true. to_prop.
    Z.to_euclidean_division_equations. lia.
  - apply is_leap_false. to_prop.
    Z.to_euclidean_division_equations. lia.
Qed.

Lemma days_before_year_cycle a b c e :
  0 <= b <= 3 -> 0 <= c <= 24 -> 0 <= e <= 3 ->
  days_before_year (a * 400 + 1 + b * 100 + c * 4 + e)
  = a * 146097 + b * 36524 + c * 1461 + e * 365.
Proof.
  intros Hb Hc He. unfold days_before_year.
  Z.to_euclidean_division_equations. lia.
Qed.

Lemma check_date_fields_intro y m d :
  1 <= y <= 9999 -> 1 <= m <= 12 ->
  1 <= d <= DAYS_IN_MONTH m + (if (m =? 2) && is_leap y then 1 else 0) ->
  check_date_fields y m d = true.
Proof.
  intros Hy Hm Hd.
  unfold check_date_fields, days_in_month, MINYEAR, MAXYEAR.
  destruct ((m =? 2) && is_leap y) eqn:E; to_prop.
  - destruct E as [-> _]. simpl in Hd. lia.
  - lia.
Qed.

Lemma ord2ymd_spec n :
  1 <= n <= MAXORDINAL ->
  let '(y, m, d) := ord2ymd n in
  check_date_fields y m d = true /\ toordinal (mkDate y m d) = n.
Proof.
  unfold MAXORDINAL. intros Hn. unfold ord2ymd. cbv zeta.
  assert (HN : 0 <= n - 1 <= 3652058) by lia.
  assert (En : n = (n - 1) + 1) by lia.
  set (N := n - 1) in *. clearbody N. clear Hn.
  split_div N 146097 a r1.
  split_div r1 36524 b r2.
  split_div r2 1461 c r3.
  split_div r3 365 e r4.
  destruct ((e =? 4) || (b =? 4)) eqn:Elast.
  - (* the last day of a leap year *)
    to_prop. unfold toordinal, days_before_month. simpl year. simpl month.
    simpl day.
    assert (Hy : exists b' c',
               0 <= b' <= 3 /\ 0 <= c' <= 24
               /\ (negb (c' =? 24) || (b' =? 3)) = true
               /\ a * 400 + 1 + b * 100 + c * 4 + e - 1
                  = a * 400 + 1 + b' * 100 + c' * 4 + 3
               /\ N = a * 146097 + b' * 36524 + c' * 1461 + 3 * 365 + 365).
    { destruct Elast as [He | Hb].
      - exists b, c. to_prop. repeat split; lia.
      - exists 3, 24. to_prop. repeat split; lia. }
    destruct Hy as (b' & c' & Hb' & Hc' & Hleap & -> & HNeq).
    assert (Hl : is_leap (a * 400 + 1 + b' * 100 + c' * 4 + 3) = true).
    { rewrite is_leap_cycle by lia. rewrite Hleap. reflexivity. }
    split.
    + apply check_date_fields_intro; [lia | lia |]. rewrite Hl. simpl. lia.
    + rewrite Hl, days_before_year_cycle by lia. simpl. lia.
  - (* any other day *)
    to_prop.
    assert (Hl : is_leap (a * 400 + 1 + b * 100 + c * 4 + e)
                 = (e =? 3) && (negb (c =? 24) || (b =? 3)))
      by (apply is_leap_cycle; lia).
    set (leap := (e =? 3) && (negb (c =? 24) || (b =? 3))) in *.
    pose proof (month_of_offset leap r4) as Hm. cbv zeta in Hm.
    destruct (r4 <? _) in Hm |- *; simpl fst in *;
      destruct Hm as (Hm1 & Hd1 & Hsum); try (destruct leap; lia);
      (split;
       [ apply check_date_fields_intro; [lia | lia | now rewrite Hl]
       | unfold toordinal, days_before_month; simpl year; simpl month;
         simpl day; rewrite Hl, days_before_year_cycle by lia; lia ]).
Qed.

Lemma fromordinal_spec n :
  1 <= n <= MAXORDINAL ->
  exists d,
    fromordinal n = Return d /\ valid_date d = true /\ toordinal d = n.
Proof.
  intros Hn. pose proof (ord2ymd_spec n Hn) as H.
  unfold fromordinal, new_date.
  destruct (ord2ymd n) as [[y m] d]. destruct H as [Hc Ho].
  rewrite Hc. exists (mkDate y m d). auto.
Qed.

(** Adding days moves the ordinal by that many days, or overflows. *)
Lemma add_days_spec d k :
  (0 < toordinal d + k <= MAXORDINAL ->
   exists d',
     add_days d k = Return d'
     /\ valid_date d' = true /\ toordinal d' = toordinal d + k)
  /\ (~ 0 < toordinal d + k <= MAXORDINAL ->
      add_days d k = Raise OverflowError).
Proof.
  unfold add_days. split; intros H.
  - assert ((0 <? toordinal d + k) && (toordinal d + k <=? MAXORDINAL)
            = true) as -> by (to_prop; lia).
    apply fromordinal_spec. lia.
  - assert ((0 <? toordinal d + k) && (toordinal d + k <=? MAXORDINAL)
            = false) as -> by (to_prop; lia).
    reflexivity.
Qed.

Lemma add_days_ordinal d k d' :
  add_days d k = Return d' -> toordinal d' = toordinal d + k.
Proof.
  intros H. destruct (add_days_spec d k) as [Hin Hout].
  destruct (Z_lt_dec 0 (toordinal d + k));
    destruct (Z_le_dec (toordinal d + k) MAXORDINAL);
    try (rewrite Hout in H by lia; discriminate).
  destruct Hin as (d0 & E & _ & Ho); [lia|]. congruence.
Qed.

Lemma month_cases_of_check y m d :
  check_date_fields y m d = true ->
  (m = 1 \/ m = 2 \/ m = 3 \/ m = 4 \/ m = 5 \/ m = 6 \/
   m = 7 \/ m = 8 \/ m = 9 \/ m = 10 \/ m = 11 \/ m = 12)
  /\ 1 <= d <= DAYS_IN_MONTH m + (if (m =? 2) && is_leap y then 1 else 0).
Proof.
  unfold check_date_fields, days_in_month. intros H.
  destruct ((m =? 2) && is_leap y) eqn:E; to_prop.
  - destruct E as [-> _]. simpl. split; [tauto | lia].
  - split; [lia | lia].
Qed.

(** Within one year the day of the year grows with month and day. *)
Lemma day_of_year_lt y m1 d1 m2 d2 :
  check_date_fields y m1 d1 = true ->
  check_date_fields y m2 d2 = true ->
  m1 < m2 \/ (m1 = m2 /\ d1 < d2) ->
  days_before_month y m1 + d1 < days_before_month y m2 + d2.
Proof.
  intros H1 H2 Hlt.
  apply month_cases_of_check in H1, H2.
  destruct H1 as [C1 B1], H2 as [C2 B2].
  unfold days_before_month. revert B1 B2.
  each_month C1; each_month C2; try lia;
    destruct (is_leap y); table_lookup; lia.
Qed.

Lemma day_of_year_bound y m d :
  check_date_fields y m d = true ->
  1 <= days_before_month y m + d <= 365 + (if is_leap y then 1 else 0).
Proof.
  intros H. apply month_cases_of_check in H. destruct H as [C B].
  unfold days_before_month. revert B.
  each_month C; destruct (is_leap y); table_lookup; lia.
Qed.

(** The ordinal grows with the order on well-formed dates. *)
Lemma toordinal_lt a b :
  valid_date a = true -> valid_date b = true ->
  date_ltb a b = true -> toordinal a < toordinal b.
Proof.
  destruct a as [ya ma da], b as [yb mb db].
  unfold valid_date, date_ltb, toordinal. simpl. intros Ha Hb Hlt.
  to_prop. destruct Hlt as [Hy | [-> Hmd]].
  - pose proof (day_of_year_bound _ _ _ Ha).
    pose proof (day_of_year_bound _ _ _ Hb).
    pose proof (days_before_year_succ ya).
    pose proof (days_before_year_mono (ya + 1) yb). lia.
  - pose proof (day_of_year_lt _ _ _ _ _ Ha Hb). lia.
Qed.

Lemma toordinal_le_leb a b :
  valid_date a = true -> valid_date b = true ->
  toordinal a <= toordinal b -> date_leb a b = true.
Proof.
  intros Ha Hb Hle. destruct (date_leb a b) eqn:E; [reflexivity|].
  apply date_leb_false_ltb in E.
  pose proof (toordinal_lt _ _ Hb Ha E). lia.
Qed.

Lemma toordinal_lt_ltb a b :
  valid_date a = true -> valid_date b = true ->
  toordinal a < toordinal b -> date_ltb a b = true.
Proof.
  intros Ha Hb Hlt. destruct (date_ltb a b) eqn:E; [reflexivity|].
  apply date_ltb_false_leb in E.
  destruct (date_ltb b a) eqn:E2.
  - pose proof (toordinal_lt _ _ Hb Ha E2). lia.
  - assert (a = b); [|subst; lia].
    destruct a, b. unfold date_leb, date_ltb in *. simpl in *. to_prop.
    f_equal; lia.
Qed.

(** ** The advance rule *)

Section AdvanceFacts.
Import Schedule Steps.

Lemma toordinal_pos d : valid_date d = true -> 1 <= toordinal d.
Proof.
  intros Hv. pose proof (valid_date_bounds d Hv) as Hb.
  unfold valid_date in Hv. apply day_of_year_bound in Hv.
  pose proof (days_before_year_mono 1 (year d)).
  unfold toordinal. change (days_before_year 1) with 0 in *. lia.
Qed.

Lemma day_frequency_advance current f k :
  In (f, k) day_frequencies ->
  0 < k
  /\ advance_date current f = (d <- add_days current k ;; Return (Some d)).
Proof.
  simpl. intros H.
  repeat (destruct H as [[= <- <-] | H]; [split; [lia | reflexivity]|]).
  contradiction.
Qed.

Lemma month_frequency_step f k : In (f, k) month_frequencies -> 1 <= k.
Proof.
  simpl. intros H.
  repeat (destruct H as [[= <- <-] | H]; [lia|]). contradiction.
Qed.

(** Every frequency is day-based, month-based, or without a rule. *)
Lemma advance_date_cases current f :
  (exists k, In (f, k) day_frequencies)
  \/ (exists k, In (f, k) month_frequencies)
  \/ advance_date current f = Return None.
Proof.
  unfold advance_date.
  repeat match goal with
  | |- context [String.eqb f ?s] =>
      destruct (String.eqb_spec f s) as [-> | _];
      [ first
          [ right; right; reflexivity
          | left; eexists; simpl; tauto
          | right; left; eexists; simpl; tauto ] | ]
  end.
  right; right; reflexivity.
Qed.

Lemma add_months_later src months d :
  valid_date src = true -> 1 <= months ->
  add_months src months = Return d ->
  date_ltb src d = true.
Proof.
  intros Hv Hm H. rewrite add_months_fields in H.
  apply new_date_valid in H. destruct H as (_ & Hy & Hmo & _).
  apply valid_date_bounds in Hv.
  unfold date_ltb. rewrite Hy, Hmo. unfold target_year, target_month.
  to_prop. Z.to_euclidean_division_equations. lia.
Qed.

Lemma add_days_later d k d' :
  valid_date d = true -> 0 < k ->
  add_days d k = Return d' ->
  date_ltb d d' = true.
Proof.
  intros Hv Hk H.
  apply toordinal_lt_ltb; [exact Hv | eapply add_days_valid; eauto |].
  rewrite (add_days_ordinal _ _ _ H). lia.
Qed.

Lemma advance_date_later current f next :
  valid_date current = true ->
  advance_date current f = Return (Some next) ->
  date_ltb current next = true.
Proof.
  intros Hv H.
  destruct (advance_date_cases current f) as [[k Hk] | [[k Hk] | Hn]].
  - destruct (day_frequency_advance current f k Hk) as [Hpos E].
    rewrite E in H.
    destruct (add_days current k) as [d| |] eqn:Ed; simpl in H;
      try discriminate.
    injection H as <-. eapply add_days_later; eauto.
  - rewrite (month_frequency_advance current f k Hk) in H.
    destruct (add_months current k) as [d| |] eqn:Ed; simpl in H;
      try discriminate.
    injection H as <-.
    eapply add_months_later; eauto using month_frequency_step.
  - congruence.
Qed.
End AdvanceFacts.

(** X1: a month-based step of one month or more, when it returns a date,
    returns one strictly later than the source date. *)
Theorem add_months_moves_forward (src d : date) (months : Z) :
  valid_date src = true ->
  1 <= months ->
  Schedule.add_months src months = Return d ->
  date_ltb src d = true /\ valid_date d = true.
Proof.
  intros Hv Hm H. split.
  - eapply add_months_later; eauto.
  - eapply add_months_valid; eauto.
Qed.

Lemma add_months_moves_forward_witness :
  date_ltb (mkDate 2023 11 30) (mkDate 2024 2 29) = true
  /\ valid_date (mkDate 2024 2 29) = true.
Proof.
  apply (add_months_moves_forward (mkDate 2023 11 30) (mkDate 2024 2 29) 3).
  - reflexivity.
  - lia.
  - reflexivity.
Defined.

(** X2: a day-based frequency advances by exactly its number of days: the
    next date is that many days later by the calendar, and past the last
    day of year 9999 the advance raises [OverflowError]. *)
Theorem advance_date_day_step (current : date) (f : string) (k : Z) :
  In (f, k) Steps.day_frequencies ->
  valid_date current = true ->
  (toordinal current + k <= MAXORDINAL ->
   exists next,
     Schedule.advance_date current f = Return (Some next)
     /\ valid_date next = true
     /\ toordinal next = toordinal current + k)
  /\ (MAXORDINAL < toordinal current + k ->
      Schedule.advance_date current f = Raise OverflowError).
Proof.
  intros Hf Hv.
  destruct (day_frequency_advance current f k Hf) as [Hk ->].
  pose proof (toordinal_pos current Hv) as Hpos.
  destruct (add_days_spec current k) as [Hin Hout]. split; intros H.
  - destruct Hin as (d' & -> & Hv' & Ho); [lia|].
    exists d'. auto.
  - rewrite Hout by lia. reflexivity.
Qed.

Lemma advance_date_day_step_witness :
  (toordinal (mkDate 2024 2 20) + 14 <= MAXORDINAL ->
   exists next,
     Schedule.advance_date (mkDate 2024 2 20) "everyOtherWeek"
     = Return (Some next)
     /\ valid_date next = true
     /\ toordinal next = toordinal (mkDate 2024 2 20) + 14)
  /\ (MAXORDINAL < toordinal (mkDate 2024 2 20) + 14 ->
      Schedule.advance_date (mkDate 2024 2 20) "everyOtherWeek"
      = Raise OverflowError).
Proof.
  apply (advance_date_day_step (mkDate 2024 2 20) "everyOtherWeek" 14).
  - simpl. right. right. left. reflexivity.
  - reflexivity.
Defined.

(** X3: whatever the frequency, a date returned by [advance_date] is
    strictly later than the current date, so the generator's stop on a
    date that does not move forward is never taken. *)
Theorem advance_date_moves_forward (current next : date) (f : string) :
  valid_date current = true ->
  Schedule.advance_date current f = Return (Some next) ->
  date_ltb current next = true /\ date_leb next current = false.
Proof.
  intros Hv H. pose proof (advance_date_later current f next Hv H) as Hlt.
  split; [exact Hlt|]. unfold date_leb.
  destruct current, next. unfold date_ltb in *. simpl in *. to_prop. lia.
Qed.

Lemma advance_date_moves_forward_witness :
  date_ltb (mkDate 2024 1 31) (mkDate 2024 2 29) = true
  /\ date_leb (mkDate 2024 2 29) (mkDate 2024 1 31) = false.
Proof.
  apply (advance_date_moves_forward
           (mkDate 2024 1 31) (mkDate 2024 2 29) "monthly").
  - reflexivity.
  - reflexivity.
Defined.

(** ** The generator under [advance_date] *)

Section GeneratorShape.
Import Schedule Steps.

Variables today cutoff : date.
Variable f : string.

(** What one run of the loop yields, seen from the date it starts at. *)
Lemma generate_shape fuel :
  forall current ds fin,
    generate advance_date fuel today cutoff f current = (ds, fin) ->
    Forall (fun d => date_leb current d = true) ds
    /\ advances f ds
    /\ (date_leb today current = true ->
        forall d rest, ds = d :: rest -> d = current)
    /\ (In current ds ->
        date_leb today current = true /\ date_leb current cutoff = true)
    /\ ((1 <= fuel)%nat ->
        date_leb today current = true -> date_leb current cutoff = true ->
        exists rest, ds = current :: rest).
Proof.
  unfold advances.
  induction fuel as [|fuel IH]; intros current ds fin; simpl.
  { intros [= <- <-]. repeat split; try constructor; try easy. }
  destruct (date_leb current cutoff) eqn:Hcut.
  2:{ intros [= <- <-]. repeat split; try constructor; try easy. }
  assert (Hself : date_leb current current = true)
    by (unfold date_leb; now rewrite date_ltb_irrefl).
  assert (Hone :
    forall fin0,
      (if date_leb today current then [current] else [], fin0) = (ds, fin) ->
      Forall (fun d => date_leb current d = true) ds
      /\ Sorted (fun a b => advance_date a f = Return (Some b)) ds
      /\ (date_leb today current = true ->
          forall d rest, ds = d :: rest -> d = current)
      /\ (In current ds ->
          date_leb today current = true /\ date_leb current cutoff = true)
      /\ ((1 <= S fuel)%nat ->
          date_leb today current = true -> date_leb current cutoff = true ->
          exists rest, ds = current :: rest)).
  { intros fin0 [= <- <-].
    destruct (date_leb today current) eqn:Ht.
    - split; [repeat constructor; exact Hself|].
      split; [repeat constructor|].
      split; [intros _ d rest [= <- <-]; reflexivity|].
      split; [intros _; split; [reflexivity | exact Hcut]|].
      intros _ _ _. eexists; reflexivity.
    - split; [constructor|]. split; [constructor|].
      split; [discriminate|]. split; [intros []|]. discriminate. }
  assert (Hone' :
    forall fin0,
      (if date_leb today current then [current] else [], fin0) = (ds, fin) ->
      Forall (fun d => date_leb current d = true) ds
      /\ Sorted (fun a b => advance_date a f = Return (Some b)) ds
      /\ (date_leb today current = true ->
          forall d rest, ds = d :: rest -> d = current)
      /\ (In current ds -> date_leb today current = true /\ true = true)
      /\ ((1 <= S fuel)%nat ->
          date_leb today current = true -> true = true ->
          exists rest, ds = current :: rest)).
  { intros fin0 E. destruct (Hone fin0 E) as (H1 & H2 & H3 & H4 & H5).
    split; [exact H1|]. split; [exact H2|]. split; [exact H3|].
    split; [intros Hi; destruct (H4 Hi); auto | intros; apply H5; auto]. }
  clear Hone.
  destruct (advance_date current f) as [[next|]| e |] eqn:Hadv;
    try (apply Hone').
  destruct (date_leb next current) eqn:Hnext; [apply Hone'|].
  destruct (generate advance_date fuel today cutoff f next)
    as [later fin'] eqn:Hgen.
  intros [= <- <-].
  destruct (IH next later fin' Hgen) as (Hall & Hs & Hhead & _ & _).
  assert (Hlater : Forall (fun d => date_ltb current d = true) later).
  { eapply Forall_impl; [|exact Hall]. intros d Hd.
    apply date_leb_false_ltb in Hnext.
    apply (date_ltb_leb_trans _ _ _ Hnext Hd). }
  assert (Hnotin : ~ In current later).
  { intros Hin. rewrite Forall_forall in Hlater.
    specialize (Hlater current Hin). now rewrite date_ltb_irrefl in Hlater. }
  assert (Hge : Forall (fun d => date_leb current d = true) later).
  { eapply Forall_impl; [|exact Hlater].
    intros d Hd. unfold date_leb.
    destruct current, d. unfold date_ltb in *. simpl in *. to_prop. lia. }
  destruct (date_leb today current) eqn:Ht; simpl.
  - split; [constructor; [exact Hself | exact Hge]|].
    split.
    { constructor; [exact Hs|].
      destruct later as [|d rest]; constructor.
      assert (Htn : date_leb today next = true).
      { destruct today, current, next. date_order. }
      now rewrite (Hhead Htn d rest eq_refl). }
    split; [intros _ d rest [= <- <-]; reflexivity|].
    split; [intros _; split; reflexivity|].
    intros _ _ _. eexists; reflexivity.
  - split; [exact Hge|]. split; [exact Hs|].
    split; [discriminate|]. split; [intros Hin; contradiction|].
    discriminate.
Qed.

(** When the loop ends by itself, the rule has no date after the last
    date it reached, or one beyond the cutoff. *)
Lemma generate_complete fuel :
  forall current ds,
    valid_date current = true ->
    date_leb today current = true -> date_leb current cutoff = true ->
    generate advance_date fuel today cutoff f current = (ds, Exhausted) ->
    exists pre final,
      ds = pre ++ [final]
      /\ (advance_date final f = Return None
          \/ exists next,
               advance_date final f = Return (Some next)
               /\ date_ltb cutoff next = true).
Proof.
  induction fuel as [|fuel IH]; intros current ds Hv Ht Hcut; simpl;
    [discriminate|].
  rewrite Hcut, Ht.
  destruct (advance_date current f) as [[next|]| e |] eqn:Hadv;
    try discriminate.
  - pose proof (advance_date_later _ _ _ Hv Hadv) as Hlt.
    assert (Hnext : date_leb next current = false).
    { unfold date_leb. now rewrite Hlt. }
    rewrite Hnext.
    destruct (generate advance_date fuel today cutoff f next)
      as [later fin'] eqn:Hgen.
    intros [= <- ->].
    assert (Hnv : valid_date next = true).
    { destruct (advance_date_rule current f) as [_ Hr]. now apply Hr. }
    assert (Htn : date_leb today next = true).
    { destruct today, current, next. date_order. }
    destruct (date_leb next cutoff) eqn:Hnc.
    + destruct (IH next later Hnv Htn Hnc Hgen) as (pre & final & -> & Hfin).
      exists (current :: pre), final. split; [reflexivity | exact Hfin].
    + destruct fuel as [|fuel']; simpl in Hgen; [discriminate|].
      rewrite Hnc in Hgen. injection Hgen as <-.
      exists [], current. split; [reflexivity|].
      right. exists next. split; [exact Hadv|].
      now apply date_leb_false_ltb.
  - intros [= <-]. exists [], current. split; [reflexivity | now left].
Qed.
End GeneratorShape.

(** X4: the generator never yields a date earlier than the start date, and
    it yields the start date, then as its first date, exactly when the start
    date lies within [today, today+horizon]. *)
Theorem occurrences_from_start (today start : date) (f : string)
    (max_days : Z) :
  let ds :=
    fst (Schedule.occurrences_within_window today start f max_days) in
  Forall (fun d => date_leb start d = true) ds
  /\ (In start ds <->
      exists cutoff,
        add_days today max_days = Return cutoff
        /\ date_leb today start = true /\ date_leb start cutoff = true)
  /\ (In start ds -> exists rest, ds = start :: rest).
Proof.
  unfold Schedule.occurrences_within_window, Schedule.occurrences_with.
  cbv zeta.
  destruct (add_days today max_days) as [cutoff| e |] eqn:Hcut;
    cbv beta iota.
  - destruct (Schedule.generate Schedule.advance_date
                (Schedule.budget start cutoff) today cutoff f start)
      as [ds fin] eqn:Hgen.
    unfold Schedule.budget in Hgen.
    destruct (generate_shape today cutoff f _ _ _ _ Hgen)
      as (Hall & _ & _ & Hin & Hfirst).
    cbn [fst]. split; [exact Hall|]. split.
    + split.
      * intros H. exists cutoff. split; [reflexivity | now apply Hin].
      * intros (c & [= <-] & Ht & Hc).
        destruct (Hfirst ltac:(lia) Ht Hc) as [rest ->]. now left.
    + intros H. destruct (Hin H) as [Ht Hc]. apply Hfirst; auto. lia.
  - cbn [fst]. split; [constructor|]. split; [|intros []].
    split; [intros [] | intros (c & Hc & _); discriminate].
  - cbn [fst]. split; [constructor|]. split; [|intros []].
    split; [intros [] | intros (c & Hc & _); discriminate].
Qed.

(** X5: each date the generator yields after the first is exactly what
    [advance_date] makes of the date yielded before it: no date of the
    recurrence is skipped between two yielded dates. *)
Theorem occurrences_are_successive (today start : date) (f : string)
    (max_days : Z) :
  Steps.advances f
    (fst (Schedule.occurrences_within_window today start f max_days)).
Proof.
  unfold Schedule.occurrences_within_window, Schedule.occurrences_with.
  destruct (add_days today max_days) as [cutoff| e |]; cbn [fst];
    try constructor.
  destruct (Schedule.generate Schedule.advance_date
              (Schedule.budget start cutoff) today cutoff f start)
    as [ds fin] eqn:Hgen.
  destruct (generate_shape today cutoff f _ _ _ _ Hgen) as (_ & Hs & _).
  exact Hs.
Qed.

(** X6: when the generator, started within the window, ends without an
    error, its last date is the last of the recurrence in the window: after
    it [advance_date] gives no date, or a date beyond today+horizon. *)
Theorem occurrences_reach_cutoff (today start cutoff : date) (f : string)
    (max_days : Z) (ds : list date) :
  valid_date start = true ->
  add_days today max_days = Return cutoff ->
  date_leb today start = true ->
  date_leb start cutoff = true ->
  Schedule.occurrences_within_window today start f max_days
  = (ds, Schedule.Exhausted) ->
  exists pre final,
    ds = pre ++ [final]
    /\ (Schedule.advance_date final f = Return None
        \/ exists next,
             Schedule.advance_date final f = Return (Some next)
             /\ date_ltb cutoff next = true).
Proof.
  intros Hv Hcut Ht Hc.
  unfold Schedule.occurrences_within_window, Schedule.occurrences_with.
  rewrite Hcut. apply generate_complete; assumption.
Qed.

Lemma occurrences_reach_cutoff_witness :
  exists pre final,
    [mkDate 2024 1 31; mkDate 2024 2 29; mkDate 2024 3 29] = pre ++ [final]
    /\ (Schedule.advance_date final "monthly" = Return None
        \/ exists next,
             Schedule.advance_date final "monthly" = Return (Some next)
             /\ date_ltb (mkDate 2024 4 14) next = true).
Proof.
  apply (occurrences_reach_cutoff (mkDate 2024 1 15) (mkDate 2024 1 31)
           (mkDate 2024 4 14) "monthly" 90).
  - reflexivity.
  - reflexivity.
  - reflexivity.
  - reflexivity.
  - reflexivity.
Defined.

(** ** More on the projection *)

Section ProjectionMore.
Import Projection.

Lemma projection_loop_drop cutoff occs :
  forall projected p d,
    projection_loop occs projected None cutoff = (p, Some d) ->
    exists pre amt post,
      occs = pre ++ (d, amt) :: post
      /\ Forall (fun o => date_leb (fst o) cutoff = true)
           (pre ++ [(d, amt)])
      /\ first_drop projected pre = None
      /\ accumulated projected (pre ++ [(d, amt)]) < 0.
Proof.
  unfold accumulated, sum_Z.
  induction occs as [|[when amt] rest IH]; intros projected p d; simpl;
    [discriminate|].
  destruct (date_ltb cutoff when) eqn:Hcut; [discriminate|].
  assert (Hle : date_leb when cutoff = true)
    by (unfold date_leb; now rewrite Hcut).
  destruct (projected + amt <? 0) eqn:Hneg.
  - intros H.
    pose proof (projection_loop_recorded cutoff rest (projected + amt) when)
      as Hrec.
    rewrite H in Hrec. simpl in Hrec. injection Hrec as <-.
    exists [], amt, rest. simpl. to_prop.
    repeat split; [repeat constructor; exact Hle | lia].
  - intros H. destruct (IH _ _ _ H) as (pre & a & post & -> & Hall & Hfd & Hacc).
    exists ((when, amt) :: pre), a, post. simpl. rewrite Hneg.
    repeat split; [constructor; assumption | exact Hfd | lia].
Qed.

Lemma projection_loop_none cutoff occs :
  forall projected p,
    projection_loop occs projected None cutoff = (p, None) ->
    (0 <= p /\ exists w a rest, occs = (w, a) :: rest
                                /\ date_leb w cutoff = true)
    \/ (p = projected
        /\ match occs with
           | [] => True
           | (w, _) :: _ => date_ltb cutoff w = true
           end).
Proof.
  induction occs as [|[when amt] rest IH]; intros projected p; simpl.
  - intros [= <-]. right. auto.
  - destruct (date_ltb cutoff when) eqn:Hcut.
    + intros [= <-]. right. auto.
    + destruct (projected + amt <? 0) eqn:Hneg.
      * intros H.
        pose proof (projection_loop_recorded cutoff rest (projected + amt)
                      when) as Hrec.
        rewrite H in Hrec. discriminate.
      * intros H. left. split.
        -- destruct (IH _ _ H) as [[Hp _] | [-> _]]; to_prop; lia.
        -- exists when, amt, rest. split; [reflexivity|].
           unfold date_leb. now rewrite Hcut.
Qed.

Lemma projection_loop_later_cutoff c1 c2 occs :
  date_leb c1 c2 = true ->
  forall projected drop d,
    snd (projection_loop occs projected drop c1) = Some d ->
    snd (projection_loop occs projected drop c2) = Some d.
Proof.
  intros Hc. induction occs as [|[when amt] rest IH];
    intros projected drop d; simpl; [auto|].
  destruct (date_ltb c1 when) eqn:H1.
  - simpl. intros ->.
    destruct (date_ltb c2 when); [reflexivity|].
    apply projection_loop_recorded.
  - assert (date_ltb c2 when = false) as ->.
    { destruct c1, c2, when. date_order. }
    apply IH.
Qed.
End ProjectionMore.

(** X7: a drop date returned by [calc_projection] is the date of an
    occurrence of the list: every occurrence up to and including it is
    dated no later than the cutoff, the running balance was never negative
    before it, and it is strictly negative after it. *)
Theorem calc_projection_drop_date (occs : list occurrence) (balance p : Z)
    (cutoff d : date) :
  Projection.calc_projection occs balance cutoff = (p, Some d) ->
  exists pre amt post,
    occs = pre ++ (d, amt) :: post
    /\ Forall (fun o => date_leb (fst o) cutoff = true) (pre ++ [(d, amt)])
    /\ Projection.first_drop balance pre = None
    /\ Projection.accumulated balance (pre ++ [(d, amt)]) < 0.
Proof. apply projection_loop_drop. Qed.

Lemma calc_projection_drop_date_witness :
  exists pre amt post,
    [ (mkDate 2024 3 2, 500); (mkDate 2024 3 5, -2000);
      (mkDate 2024 3 9, 3000) ]
    = pre ++ (mkDate 2024 3 5, amt) :: post
    /\ Forall (fun o => date_leb (fst o) (mkDate 2024 3 10) = true)
         (pre ++ [(mkDate 2024 3 5, amt)])
    /\ Projection.first_drop 1000 pre = None
    /\ Projection.accumulated 1000 (pre ++ [(mkDate 2024 3 5, amt)]) < 0.
Proof.
  apply (calc_projection_drop_date
           [ (mkDate 2024 3 2, 500); (mkDate 2024 3 5, -2000);
             (mkDate 2024 3 9, 3000) ]
           1000 2500 (mkDate 2024 3 10) (mkDate 2024 3 5)).
  reflexivity.
Defined.

(** X8: when [calc_projection] returns no drop date, either some
    occurrence was applied and the returned balance is not negative, or no
    occurrence was applied (the list is empty or starts after the cutoff)
    and the returned balance is the starting balance. *)
Theorem calc_projection_without_drop (occs : list occurrence)
    (balance p : Z) (cutoff : date) :
  Projection.calc_projection occs balance cutoff = (p, None) ->
  (0 <= p /\ exists w a rest, occs = (w, a) :: rest
                              /\ date_leb w cutoff = true)
  \/ (p = balance
      /\ match occs with
         | [] => True
         | (w, _) :: _ => date_ltb cutoff w = true
         end).
Proof. apply projection_loop_none. Qed.

Lemma calc_projection_without_drop_witness :
  (0 <= -4000 /\ exists w a rest,
      [ (mkDate 2024 3 20, -100) ] = (w, a) :: rest
      /\ date_leb w (mkDate 2024 3 10) = true)
  \/ (-4000 = -4000
      /\ date_ltb (mkDate 2024 3 10) (mkDate 2024 3 20) = true).
Proof.
  apply (calc_projection_without_drop [ (mkDate 2024 3 20, -100) ]
           (-4000) (-4000) (mkDate 2024 3 10)).
  reflexivity.
Defined.

(** X9: a drop date found at one cutoff is the drop date at every later
    cutoff, whatever the order of the list. *)
Theorem calc_projection_later_cutoff (occs : list occurrence) (balance : Z)
    (c1 c2 d : date) :
  date_leb c1 c2 = true ->
  snd (Projection.calc_projection occs balance c1) = Some d ->
  snd (Projection.calc_projection occs balance c2) = Some d.
Proof. intros Hc. now apply projection_loop_later_cutoff. Qed.

Lemma calc_projection_later_cutoff_witness :
  snd (Projection.calc_projection
         [ (mkDate 2024 3 5, -2000); (mkDate 2024 3 9, 3000) ]
         1000 (mkDate 2024 3 31))
  = Some (mkDate 2024 3 5).
Proof.
  apply (calc_projection_later_cutoff
           [ (mkDate 2024 3 5, -2000); (mkDate 2024 3 9, 3000) ]
           1000 (mkDate 2024 3 6) (mkDate 2024 3 31) (mkDate 2024 3 5)).
  - reflexivity.
  - reflexivity.
Defined.

(** ** More on the occurrence mapping *)

Section DictFacts.
Context {V : Type}.

Lemma dict_get_In (k : string) (v : V) (m : dict V) :
  dict_get k m = Some v -> In (k, v) m.
Proof.
  induction m as [|[k' v'] m IH]; simpl; [discriminate|].
  destruct (String.eqb_spec k' k) as [-> | _].
  - intros [= ->]. now left.
  - intros H. right. now apply IH.
Qed.

Lemma In_dict_get (k : string) (v : V) (m : dict V) :
  NoDup (map fst m) -> In (k, v) m -> dict_get k m = Some v.
Proof.
  induction m as [|[k' v'] m IH]; simpl; [intros _ []|].
  intros Hnd [[= -> ->] | Hin].
  - now rewrite String.eqb_refl.
  - inversion Hnd as [|? ? Hnotin Hnd']; subst.
    destruct (String.eqb_spec k' k) as [-> | _]; [|now apply IH].
    exfalso. apply Hnotin. apply (in_map fst) in Hin. exact Hin.
Qed.
End DictFacts.

Section BuiltFacts.
Import Schedule Built.

Variable today : date.
Variable max_days : Z.

Lemma collect_app scheduled1 scheduled2 :
  forall m,
    collect today (scheduled1 ++ scheduled2) max_days m
    = (m' <- collect today scheduled1 max_days m ;;
       collect today scheduled2 max_days m').
Proof.
  induction scheduled1 as [|txn rest IH]; intros m; simpl; [reflexivity|].
  destruct (account_id txn) as [k|]; [|apply IH].
  destruct (String.eqb k ""); [apply IH|].
  destruct (txn_amount txn =? 0); [apply IH|].
  destruct (date_next txn) as [[y mo] d].
  destruct (new_date y mo d) as [start| |]; simpl; try reflexivity.
  destruct (occurrences_within_window today start _ max_days) as [ds fin].
  destruct fin; [apply IH | reflexivity | reflexivity].
Qed.

Lemma collect_skip txn rest m :
  skipped txn ->
  collect today (txn :: rest) max_days m = collect today rest max_days m.
Proof.
  intros [H | [H | H]]; simpl.
  - now rewrite H.
  - now rewrite H.
  - destruct (account_id txn) as [k|]; [|reflexivity].
    destruct (String.eqb k ""); [reflexivity|].
    rewrite H. reflexivity.
Qed.

Lemma setdefault_append_keys k item (m : dict (list occurrence)) :
  forall k',
    In k' (map fst (setdefault_append k item m))
    <-> In k' (map fst m) \/ k' = k.
Proof.
  induction m as [|[k0 l0] m IH]; intros k'; simpl.
  - intuition congruence.
  - destruct (String.eqb_spec k0 k) as [-> | Hne]; simpl.
    + intuition congruence.
    + rewrite IH. intuition congruence.
Qed.

Lemma setdefault_append_NoDup k item (m : dict (list occurrence)) :
  NoDup (map fst m) -> NoDup (map fst (setdefault_append k item m)).
Proof.
  induction m as [|[k0 l0] m IH]; simpl; intros Hnd.
  - repeat constructor. intros [].
  - inversion Hnd as [|? ? Hnotin Hnd']; subst.
    destruct (String.eqb_spec k0 k) as [-> | Hne]; simpl.
    + constructor; assumption.
    + constructor; [|now apply IH].
      rewrite setdefault_append_keys. intuition congruence.
Qed.

Variable scheduled : list scheduled_txn.

Lemma setdefault_append_keyed k item m :
  k <> ""%string -> stems_from scheduled k item ->
  well_keyed scheduled m ->
  well_keyed scheduled (setdefault_append k item m).
Proof.
  intros Hk Hitem. induction m as [|[k0 l0] m IH]; intros Hm k' l'; simpl.
  - intros [[= <- <-] | []]. repeat split; [exact Hk | discriminate |].
    repeat constructor; apply Hitem.
  - destruct (String.eqb_spec k0 k) as [-> | Hne].
    + intros [[= <- <-] | Hin].
      * destruct (Hm k l0 (or_introl eq_refl)) as (? & ? & Hall).
        split; [exact Hk|]. split; [now destruct l0|].
        apply Forall_app; split; [exact Hall | repeat constructor; apply Hitem].
      * apply (Hm k' l'). now right.
    + intros [[= <- <-] | Hin].
      * apply (Hm k0 l0). now left.
      * apply (IH (fun k1 l1 H1 => Hm k1 l1 (or_intror H1)) k' l' Hin).
Qed.

Lemma append_occurrences_keyed k amt yielded :
  k <> ""%string -> stems_from scheduled k (today, amt) ->
  forall m,
    NoDup (map fst m) /\ well_keyed scheduled m ->
    NoDup (map fst (append_occurrences today k amt yielded m))
    /\ well_keyed scheduled (append_occurrences today k amt yielded m).
Proof.
  intros Hk Hitem.
  induction yielded as [|d yielded IH]; intros m [Hnd Hm]; simpl;
    [auto|].
  destruct (date_ltb d today); [now apply IH|].
  apply IH. split; [now apply setdefault_append_NoDup|].
  apply setdefault_append_keyed; [exact Hk | exact Hitem | exact Hm].
Qed.

Lemma collect_keyed rest :
  incl rest scheduled ->
  forall m m',
    collect today rest max_days m = Return m' ->
    NoDup (map fst m) /\ well_keyed scheduled m ->
    NoDup (map fst m') /\ well_keyed scheduled m'.
Proof.
  induction rest as [|txn rest IH]; intros Hincl m m'; simpl.
  - intros [= <-]. auto.
  - assert (Hrest : incl rest scheduled)
      by (intros x Hx; apply Hincl; now right).
    assert (Htxn : In txn scheduled) by (apply Hincl; now left).
    destruct (account_id txn) as [k|] eqn:Hid; [|now apply IH].
    destruct (String.eqb_spec k "") as [-> | Hk]; [now apply IH|].
    destruct (txn_amount txn =? 0) eqn:Hz; [now apply IH|].
    destruct (date_next txn) as [[y mo] d].
    destruct (new_date y mo d) as [start| |]; simpl; try discriminate.
    destruct (occurrences_within_window today start _ max_days)
      as [ds fin].
    destruct fin; try discriminate.
    intros Hc Hm. eapply IH; [exact Hrest | exact Hc |].
    apply append_occurrences_keyed; [exact Hk | | exact Hm].
    split; [simpl; to_prop; exact Hz|].
    exists txn. auto.
Qed.
End BuiltFacts.

(** X10: a schedule without an account id, or with a net amount of zero,
    changes nothing: the mapping, or the error, is the one obtained without
    it, whatever its date and frequency. *)
Theorem build_occurrences_skips (today : date)
    (before after : list Schedule.scheduled_txn)
    (txn : Schedule.scheduled_txn) (max_window : Z) :
  Built.skipped txn ->
  Schedule.build_occurrences today (before ++ txn :: after) max_window
  = Schedule.build_occurrences today (before ++ after) max_window.
Proof.
  intros Hskip. unfold Schedule.build_occurrences.
  rewrite !collect_app.
  destruct (Schedule.collect today before max_window []) as [m| |];
    unfold bind; try reflexivity.
  now rewrite (collect_skip today max_window txn after m Hskip).
Qed.

(** A split schedule whose parts cancel, with a date that is no date. *)
Lemma build_occurrences_skips_witness :
  Schedule.build_occurrences (mkDate 2024 5 1)
    ([] ++ Schedule.mkTxn (Some "acct"%string) (Some (-500))
             [Some 700; Some (-700)] (2024, 2, 30) (Some "monthly"%string)
           :: [])
    7
  = Schedule.build_occurrences (mkDate 2024 5 1) ([] ++ []) 7.
Proof.
  apply (build_occurrences_skips (mkDate 2024 5 1) [] []
           (Schedule.mkTxn (Some "acct") (Some (-500))
              [Some 700; Some (-700)] (2024, 2, 30) (Some "monthly"))%string
           7).
  right. right. reflexivity.
Defined.

(** X11: in the mapping returned by [build_occurrences] no account id
    occurs twice, so a lookup finds exactly the entry of an account; every
    key is a non-empty account id; no list is empty; and every occurrence
    carries the non-zero net amount of a schedule of that account. *)
Theorem build_occurrences_keys (today : date)
    (scheduled : list Schedule.scheduled_txn) (max_window : Z)
    (occurrences : dict (list occurrence)) :
  Schedule.build_occurrences today scheduled max_window
  = Return occurrences ->
  NoDup (map fst occurrences)
  /\ Built.well_keyed scheduled occurrences
  /\ forall k l, dict_get k occurrences = Some l <-> In (k, l) occurrences.
Proof.
  unfold Schedule.build_occurrences.
  destruct (Schedule.collect today scheduled max_window []) as [m| |] eqn:Hc;
    simpl; try discriminate.
  intros [= <-].
  destruct (collect_keyed today max_window scheduled scheduled
              (incl_refl _) [] m Hc) as [Hnd Hm].
  { split; [constructor | intros ? ? []]. }
  assert (Hnd' : NoDup (map fst
            (map (fun kv => (fst kv, Schedule.sort_by_date (snd kv))) m))).
  { rewrite map_map. simpl. exact Hnd. }
  split; [exact Hnd'|]. split.
  - intros k l Hin. apply in_map_iff in Hin.
    destruct Hin as ([k0 l0] & [= <- <-] & Hin). simpl.
    destruct (Hm k0 l0 Hin) as (Hk & Hl & Hall).
    split; [exact Hk|]. split.
    + intros E. apply Hl. apply Permutation_nil.
      unfold Schedule.sort_by_date in E. rewrite <- E.
      apply stable_sort_perm.
    + now apply stable_sort_Forall.
  - intros k l. split; [apply dict_get_In | now apply In_dict_get].
Qed.

Lemma build_occurrences_keys_witness :
  let occurrences :=
    [ ("acct",
       [ (mkDate 2024 5 3, -90000); (mkDate 2024 5 3, -2500) ]) ]%string in
  let scheduled :=
    [ Schedule.mkTxn (Some "acct") (Some (-90000)) [] (2024, 5, 3)
        (Some "monthly");
      Schedule.mkTxn (Some "acct") (Some (-2500)) [] (2024, 5, 3)
        (Some "never") ]%string in
  NoDup (map fst occurrences)
  /\ Built.well_keyed scheduled occurrences
  /\ forall k l, dict_get k occurrences = Some l <-> In (k, l) occurrences.
Proof.
  intros occurrences scheduled.
  apply (build_occurrences_keys (mkDate 2024 5 1) scheduled 7 occurrences).
  reflexivity.
Defined.

(** ** The pipeline: projections of a built mapping *)

Section PipelineFacts.
Import Schedule Projection.

(** The lists of a built mapping are in date order and within the
    window. *)
Lemma build_occurrences_lists today scheduled max_window occurrences :
  build_occurrences today scheduled max_window = Return occurrences ->
  forall k l,
    In (k, l) occurrences ->
    date_ascending l /\ Forall (within_window today max_window) l.
Proof.
  unfold build_occurrences.
  destruct (collect today scheduled max_window []) as [m| |] eqn:Hc;
    simpl; try discriminate.
  intros [= <-] k l Hin.
  apply in_map_iff in Hin. destruct Hin as ([k0 l0] & [= <- <-] & Hin).
  simpl. split; [apply sort_by_date_ascending|].
  apply stable_sort_Forall.
  apply (collect_windowed today max_window scheduled [] m Hc) with k0;
    [intros ? ? [] | exact Hin].
Qed.

Lemma due_all cutoff l :
  Forall (fun o => date_leb (fst o) cutoff = true) l -> due cutoff l = l.
Proof.
  unfold due. induction 1 as [|o l Ho _ IH]; simpl; [reflexivity|].
  now rewrite Ho, IH.
Qed.
End PipelineFacts.

(** X12: on every list of a mapping returned by [build_occurrences], the
    projection at any cutoff is the starting balance plus exactly the
    occurrences due by the cutoff, with the first date the running balance
    is negative; at the cutoff today+horizon every occurrence of the list is
    due. *)
Theorem projection_of_built_list (today cutoff : date)
    (scheduled : list Schedule.scheduled_txn) (max_window : Z)
    (occurrences : dict (list occurrence)) (k : string)
    (l : list occurrence) :
  Schedule.build_occurrences today scheduled max_window
  = Return occurrences ->
  add_days today max_window = Return cutoff ->
  In (k, l) occurrences ->
  (forall balance c,
      Projection.calc_projection l balance c
      = (Projection.accumulated balance (Projection.due c l),
         Projection.first_drop balance (Projection.due c l)))
  /\ forall balance,
       Projection.calc_projection l balance cutoff
       = (Projection.accumulated balance l, Projection.first_drop balance l).
Proof.
  intros Hb Hcut Hin.
  destruct (build_occurrences_lists _ _ _ _ Hb k l Hin) as [Hasc Hwin].
  assert (Hany : forall balance c,
      Projection.calc_projection l balance c
      = (Projection.accumulated balance (Projection.due c l),
         Projection.first_drop balance (Projection.due c l))).
  { intros balance c. unfold Projection.calc_projection.
    rewrite (projection_loop_due c l); [reflexivity|].
    apply date_ascending_strong, Hasc. }
  split; [exact Hany|].
  intros balance. rewrite Hany, due_all; [reflexivity|].
  eapply Forall_impl; [|exact Hwin].
  intros o (c & Hc & _ & Hle). congruence.
Qed.

Lemma projection_of_built_list_witness :
  let l := [ (mkDate 2024 5 3, -90000); (mkDate 2024 5 3, -2500) ] in
  (forall balance c,
      Projection.calc_projection l balance c
      = (Projection.accumulated balance (Projection.due c l),
         Projection.first_drop balance (Projection.due c l)))
  /\ forall balance,
       Projection.calc_projection l balance (mkDate 2024 5 8)
       = (Projection.accumulated balance l, Projection.first_drop balance l).
Proof.
  intros l.
  apply (projection_of_built_list (mkDate 2024 5 1) (mkDate 2024 5 8)
           [ Schedule.mkTxn (Some "acct") (Some (-90000)) [] (2024, 5, 3)
               (Some "monthly");
             Schedule.mkTxn (Some "acct") (Some (-2500)) [] (2024, 5, 3)
               (Some "never") ]%string
           7 [ ("acct"%string, l) ] "acct"%string l).
  - reflexivity.
  - reflexivity.
  - left. reflexivity.
Defined.

(** ** More on the risk map *)

Section SortedSetFacts.
Import Risk.

Lemma insert_unique_In w l x : In x (insert_unique w l) <-> x = w \/ In x l.
Proof.
  induction l as [|y l IH]; simpl; [intuition|].
  destruct (w <? y) eqn:E1; simpl; [intuition|].
  destruct (w =? y) eqn:E2; simpl; to_prop.
  - subst. intuition.
  - rewrite IH. intuition.
Qed.

Lemma insert_unique_sorted w l :
  Sorted Z.lt l -> Sorted Z.lt (insert_unique w l).
Proof.
  induction 1 as [|y l Hs IH Hhd]; simpl; [repeat constructor|].
  destruct (w <? y) eqn:E1; to_prop.
  - repeat constructor; assumption.
  - destruct (w =? y) eqn:E2; to_prop; [now constructor|].
    constructor; [exact IH|].
    destruct l as [|z l]; simpl; [constructor; lia|].
    inversion Hhd; subst.
    destruct (w <? z); [constructor; lia|].
    destruct (w =? z); constructor; assumption.
Qed.

Lemma sorted_set_In windows x : In x (sorted_set windows) <-> In x windows.
Proof.
  induction windows as [|w ws IH]; simpl; [reflexivity|].
  rewrite insert_unique_In, IH. intuition.
Qed.

Lemma sorted_set_sorted windows : Sorted Z.lt (sorted_set windows).
Proof.
  induction windows as [|w ws IH]; simpl; [constructor|].
  now apply insert_unique_sorted.
Qed.

Lemma sorted_set_NoDup windows : NoDup (sorted_set windows).
Proof.
  pose proof (sorted_set_sorted windows) as Hs.
  apply Sorted_StronglySorted in Hs; [|intros a b c; lia].
  induction Hs as [|w l _ IH Hall]; constructor; [|exact IH].
  intros Hin. rewrite Forall_forall in Hall. specialize (Hall w Hin). lia.
Qed.
End SortedSetFacts.

Section RiskMapFacts.
Import Risk Reported.

Variable today : date.
Variable occurrences : dict (list occurrence).

Lemma risks_append_keys win e risks :
  map fst (risks_append win e risks) = map fst risks.
Proof.
  induction risks as [|[w es] risks IH]; simpl; [reflexivity|].
  destruct (w =? win); simpl; [reflexivity | now rewrite IH].
Qed.

Lemma project_windows_keys a l bal wins :
  forall risks risks',
    project_windows today a l bal wins risks = Return risks' ->
    map fst risks' = map fst risks.
Proof.
  induction wins as [|win wins IH]; intros risks risks'; simpl.
  - now intros [= <-].
  - destruct (add_days today win) as [cutoff| |]; simpl; try discriminate.
    destruct (Projection.calc_projection l bal cutoff) as [p [dd|]];
      intros H; apply IH in H; rewrite H;
      [apply risks_append_keys | reflexivity].
Qed.

Lemma risk_loop_keys wins accounts :
  forall risks risks',
    risk_loop today accounts occurrences wins risks = Return risks' ->
    map fst risks' = map fst risks.
Proof.
  induction accounts as [|a rest IH]; intros risks risks'; simpl.
  - now intros [= <-].
  - destruct (negb (is_cash_account a)); [apply IH|].
    destruct (dict_get (id a) occurrences) as [[|o l]|]; try apply IH.
    destruct (project_windows today a (o :: l) (balance_of a) wins risks)
      as [r| |] eqn:Hp; simpl; try discriminate.
    intros H. apply IH in H. rewrite H.
    eapply project_windows_keys; eauto.
Qed.

Lemma risks_append_tabulate (F : Z -> list entry) win e keys :
  NoDup keys ->
  risks_append win e (tabulate F keys)
  = tabulate (fun w => if w =? win then F w ++ [e] else F w) keys.
Proof.
  unfold tabulate.
  induction keys as [|k keys IH]; intros Hnd; simpl; [reflexivity|].
  inversion Hnd as [|? ? Hnotin Hnd']; subst.
  destruct (k =? win) eqn:E; to_prop.
  - subst. f_equal. apply map_ext_in. intros w Hw.
    destruct (w =? win) eqn:E'; to_prop; [subst; contradiction | reflexivity].
  - f_equal. now apply IH.
Qed.

Lemma tabulate_ext (F G : Z -> list entry) keys :
  (forall w, In w keys -> F w = G w) -> tabulate F keys = tabulate G keys.
Proof.
  intros H. unfold tabulate. apply map_ext_in. intros w Hw. now rewrite H.
Qed.

Lemma project_windows_tabulate a l keys :
  NoDup keys ->
  forall wins (F : Z -> list entry),
    NoDup wins ->
    windows_in_range today wins ->
    project_windows today a l (balance_of a) wins (tabulate F keys)
    = Return
        (tabulate
           (fun w =>
              F w ++ (if in_dec Z.eq_dec w wins
                      then own_entry today a l w else []))
           keys).
Proof.
  intros Hkeys. induction wins as [|win wins IH]; intros F Hnd Hrange.
  - simpl. f_equal. apply tabulate_ext. intros w _. now rewrite app_nil_r.
  - inversion Hnd as [|? ? Hnotin Hnd']; subst.
    destruct (Hrange win (or_introl eq_refl)) as [cutoff Hcut].
    assert (Hrange' : windows_in_range today wins)
      by (intros w Hw; apply Hrange; now right).
    cbn [project_windows]. rewrite Hcut. unfold bind.
    assert (Hown : own_entry today a l win
                   = match Projection.calc_projection l (balance_of a) cutoff
                     with
                     | (proj, Some dd) =>
                         [ mkEntry (match Account.name a with
                                    | Some n => n
                                    | None => id a
                                    end) proj (balance_of a) win dd ]
                     | (_, None) => []
                     end)
      by (unfold own_entry; now rewrite Hcut).
    destruct (Projection.calc_projection l (balance_of a) cutoff)
      as [p [dd|]] eqn:Hcalc.
    + rewrite risks_append_tabulate by exact Hkeys.
      rewrite (IH _ Hnd' Hrange'). f_equal. apply tabulate_ext. intros w _.
      destruct (in_dec Z.eq_dec w (win :: wins)) as [Hin | Hout];
        destruct (in_dec Z.eq_dec w wins) as [Hin' | Hout'];
        destruct (Z.eqb_spec w win) as [-> | Hne];
        try contradiction; simpl in *;
        rewrite ?Hown, ?app_nil_r; try reflexivity; intuition congruence.
    + rewrite (IH _ Hnd' Hrange'). f_equal. apply tabulate_ext. intros w _.
      destruct (in_dec Z.eq_dec w (win :: wins)) as [Hin | Hout];
        destruct (in_dec Z.eq_dec w wins) as [Hin' | Hout'];
        destruct (Z.eq_dec w win) as [-> | Hne];
        try contradiction; simpl in *;
        rewrite ?Hown, ?app_nil_r; try reflexivity; intuition congruence.
Qed.

Lemma risk_loop_tabulate keys accounts :
  NoDup keys ->
  windows_in_range today keys ->
  forall F : Z -> list entry,
    risk_loop today accounts occurrences keys (tabulate F keys)
    = Return
        (tabulate (fun w => F w ++ entries_at today accounts occurrences w)
           keys).
Proof.
  intros Hnd Hrange. unfold entries_at.
  induction accounts as [|a rest IH]; intros F.
  - simpl. f_equal. apply tabulate_ext. intros w _. now rewrite app_nil_r.
  - cbn [risk_loop flat_map]. unfold entry_at at 1.
    destruct (is_cash_account a); cbn [negb]; [|apply IH].
    destruct (dict_get (id a) occurrences) as [[|o l]|]; try apply IH.
    rewrite (project_windows_tabulate a (o :: l) keys Hnd keys F Hnd Hrange).
    unfold bind. rewrite IH. f_equal. apply tabulate_ext. intros w Hw.
    rewrite <- app_assoc. f_equal.
    destruct (in_dec Z.eq_dec w keys); [reflexivity | contradiction].
Qed.

Lemma compute_risk_tabulate accounts windows :
  windows_in_range today windows ->
  compute_risk today accounts occurrences windows
  = Return
      (tabulate
         (fun w =>
            sort_by_projected (entries_at today accounts occurrences w))
         (sorted_set windows)).
Proof.
  intros Hrange. unfold compute_risk.
  change (map (fun w => (w, [])) (sorted_set windows))
    with (tabulate (fun _ => @nil entry) (sorted_set windows)).
  rewrite (risk_loop_tabulate (sorted_set windows) accounts
             (sorted_set_NoDup windows)).
  - unfold bind, tabulate. f_equal. rewrite map_map. reflexivity.
  - intros w Hw. apply Hrange. now apply sorted_set_In.
Qed.
End RiskMapFacts.

Section RiskWindows.
Import Risk Reported.

Lemma add_days_leb today w1 w2 c1 c2 :
  w1 <= w2 ->
  add_days today w1 = Return c1 -> add_days today w2 = Return c2 ->
  date_leb c1 c2 = true.
Proof.
  intros Hw H1 H2.
  apply toordinal_le_leb; try (eapply add_days_valid; eassumption).
  rewrite (add_days_ordinal _ _ _ H1), (add_days_ordinal _ _ _ H2). lia.
Qed.

Lemma In_tabulate (F : Z -> list entry) keys w es :
  In (w, es) (tabulate F keys) -> In w keys /\ es = F w.
Proof.
  unfold tabulate. intros H. apply in_map_iff in H.
  destruct H as (w0 & [= <- <-] & Hin). auto.
Qed.

Lemma In_sort_by_projected e es : In e (sort_by_projected es) <-> In e es.
Proof. apply stable_sort_In. Qed.

(** An entry of one window has its counterpart in every longer window. *)
Lemma entries_at_longer today accounts occurrences w1 w2 c2 e1 :
  w1 <= w2 ->
  add_days today w2 = Return c2 ->
  In e1 (entries_at today accounts occurrences w1) ->
  exists e2,
    In e2 (entries_at today accounts occurrences w2)
    /\ name e2 = name e1 /\ current e2 = current e1
    /\ drop_date e2 = drop_date e1 /\ window e2 = w2.
Proof.
  intros Hw Hc2 Hin. unfold entries_at in *.
  apply in_flat_map in Hin. destruct Hin as (a & Ha & Hin).
  unfold entry_at in Hin.
  destruct (is_cash_account a) eqn:Hcash; [|destruct Hin].
  destruct (dict_get (id a) occurrences) as [[|o l]|] eqn:Hocc;
    try destruct Hin.
  unfold own_entry in Hin.
  destruct (add_days today w1) as [c1| |] eqn:Hc1; try destruct Hin.
  destruct (Projection.calc_projection (o :: l) (balance_of a) c1)
    as [p1 [d|]] eqn:Hcalc; [|destruct Hin].
  destruct Hin as [<- | []].
  pose proof (add_days_leb _ _ _ _ _ Hw Hc1 Hc2) as Hle.
  pose proof (projection_loop_later_cutoff c1 c2 (o :: l) Hle
                (balance_of a) None d) as Hlater.
  unfold Projection.calc_projection in Hcalc. rewrite Hcalc in Hlater.
  specialize (Hlater eq_refl).
  destruct (Projection.projection_loop (o :: l) (balance_of a) None c2)
    as [p2 dd2] eqn:Hcalc2. simpl in Hlater. subst dd2.
  eexists. split.
  - apply in_flat_map. exists a. split; [exact Ha|].
    unfold entry_at. rewrite Hcash, Hocc. unfold own_entry.
    rewrite Hc2. unfold Projection.calc_projection. rewrite Hcalc2.
    left. reflexivity.
  - simpl. auto.
Qed.
End RiskWindows.

(** X13: when every requested window has a cutoff date, [compute_risk]
    returns, for each distinct window in ascending order, the entries of
    the cash accounts that have occurrences and a drop date by that window,
    taken in account order and then sorted by projected balance. *)
Theorem compute_risk_entries (today : date) (accounts : list account)
    (occurrences : dict (list occurrence)) (windows : list Z) :
  Reported.windows_in_range today windows ->
  Risk.compute_risk today accounts occurrences windows
  = Return
      (Reported.tabulate
         (fun w =>
            Risk.sort_by_projected
              (Reported.entries_at today accounts occurrences w))
         (Risk.sorted_set windows)).
Proof. apply compute_risk_tabulate. Qed.

Lemma compute_risk_entries_witness :
  Risk.compute_risk (mkDate 2024 5 1)
    [ mkAccount "a1" (Some "Daily") None None (Some 1000);
      mkAccount "a2" (Some "Bills") None None (Some 1000) ]%string
    [ ("a1", [ (mkDate 2024 5 2, -3000) ]);
      ("a2", [ (mkDate 2024 5 6, -6000) ]) ]%string
    [7; 3; 7]
  = Return
      [ (3, [ Risk.mkEntry "Daily" (-2000) 1000 3 (mkDate 2024 5 2) ]);
        (7, [ Risk.mkEntry "Bills" (-5000) 1000 7 (mkDate 2024 5 6);
              Risk.mkEntry "Daily" (-2000) 1000 7 (mkDate 2024 5 2) ]) ]%string.
Proof.
  apply (compute_risk_entries (mkDate 2024 5 1)
           [ mkAccount "a1" (Some "Daily") None None (Some 1000);
             mkAccount "a2" (Some "Bills") None None (Some 1000) ]%string
           [ ("a1", [ (mkDate 2024 5 2, -3000) ]);
             ("a2", [ (mkDate 2024 5 6, -6000) ]) ]%string
           [7; 3; 7]).
  intros w Hw. simpl in Hw.
  destruct Hw as [<- | [<- | [<- | []]]]; eexists; reflexivity.
Defined.

(** X14: the windows of a returned risk map are the requested windows
    without repetition, in strictly ascending order. *)
Theorem compute_risk_windows (today : date) (accounts : list account)
    (occurrences : dict (list occurrence)) (windows : list Z)
    (risks : list (Z * list Risk.entry)) :
  Risk.compute_risk today accounts occurrences windows = Return risks ->
  map fst risks = Risk.sorted_set windows
  /\ Sorted Z.lt (map fst risks)
  /\ NoDup (map fst risks)
  /\ forall w, In w (map fst risks) <-> In w windows.
Proof.
  unfold Risk.compute_risk.
  destruct (Risk.risk_loop today accounts occurrences _ _) as [r| |] eqn:Hl;
    simpl; try discriminate.
  intros [= <-]. apply risk_loop_keys in Hl.
  assert (Hk : map fst (map (fun r0 => (fst r0, Risk.sort_by_projected
                                                 (snd r0))) r)
               = Risk.sorted_set windows).
  { transitivity (map fst r);
      [rewrite map_map; apply map_ext; reflexivity|].
    rewrite Hl, map_map. simpl. apply map_id. }
  rewrite Hk. split; [reflexivity|].
  split; [apply sorted_set_sorted|].
  split; [apply sorted_set_NoDup|]. apply sorted_set_In.
Qed.

Lemma compute_risk_windows_witness :
  map fst [ (3, @nil Risk.entry); (7, []) ] = Risk.sorted_set [7; 3; 7]
  /\ Sorted Z.lt (map fst [ (3, @nil Risk.entry); (7, []) ])
  /\ NoDup (map fst [ (3, @nil Risk.entry); (7, []) ])
  /\ forall w, In w (map fst [ (3, @nil Risk.entry); (7, []) ])
               <-> In w [7; 3; 7].
Proof.
  apply (compute_risk_windows (mkDate 2024 5 1) [] [] [7; 3; 7]
           [ (3, []); (7, []) ]).
  reflexivity.
Defined.

(** X15: an account reported within one window is reported within every
    longer requested window, with the same drop date. *)
Theorem risk_persists_in_longer_windows (today : date)
    (accounts : list account) (occurrences : dict (list occurrence))
    (windows : list Z) (risks : list (Z * list Risk.entry))
    (w1 w2 : Z) (es1 es2 : list Risk.entry) (e1 : Risk.entry) :
  Reported.windows_in_range today windows ->
  Risk.compute_risk today accounts occurrences windows = Return risks ->
  In (w1, es1) risks -> In (w2, es2) risks ->
  w1 <= w2 ->
  In e1 es1 ->
  exists e2,
    In e2 es2
    /\ Risk.name e2 = Risk.name e1
    /\ Risk.current e2 = Risk.current e1
    /\ Risk.drop_date e2 = Risk.drop_date e1
    /\ Risk.window e2 = w2.
Proof.
  intros Hrange Hrisk H1 H2 Hw He1.
  rewrite (compute_risk_tabulate today occurrences accounts windows Hrange)
    in Hrisk.
  injection Hrisk as <-.
  apply In_tabulate in H1, H2. destruct H1 as [_ ->], H2 as [Hk2 ->].
  rewrite In_sort_by_projected in He1.
  destruct (Hrange w2) as [c2 Hc2]; [now apply sorted_set_In|].
  destruct (entries_at_longer _ _ _ _ _ _ _ Hw Hc2 He1)
    as (e2 & Hin & Hrest).
  exists e2. split; [now rewrite In_sort_by_projected | exact Hrest].
Qed.

Lemma risk_persists_in_longer_windows_witness :
  exists e2,
    In e2 [ Risk.mkEntry "Bills" (-5000) 1000 7 (mkDate 2024 5 6);
            Risk.mkEntry "Daily" (-2000) 1000 7 (mkDate 2024 5 2) ]%string
    /\ Risk.name e2 = "Daily"%string
    /\ Risk.current e2 = 1000
    /\ Risk.drop_date e2 = mkDate 2024 5 2
    /\ Risk.window e2 = 7.
Proof.
  apply (risk_persists_in_longer_windows (mkDate 2024 5 1)
           [ mkAccount "a1" (Some "Daily") None None (Some 1000);
             mkAccount "a2" (Some "Bills") None None (Some 1000) ]%string
           [ ("a1", [ (mkDate 2024 5 2, -3000) ]);
             ("a2", [ (mkDate 2024 5 6, -6000) ]) ]%string
           [7; 3; 7]
           [ (3, [ Risk.mkEntry "Daily" (-2000) 1000 3 (mkDate 2024 5 2) ]);
             (7, [ Risk.mkEntry "Bills" (-5000) 1000 7 (mkDate 2024 5 6);
                   Risk.mkEntry "Daily" (-2000) 1000 7 (mkDate 2024 5 2) ])
           ]%string
           3 7
           [ Risk.mkEntry "Daily" (-2000) 1000 3 (mkDate 2024 5 2) ]%string
           [ Risk.mkEntry "Bills" (-5000) 1000 7 (mkDate 2024 5 6);
             Risk.mkEntry "Daily" (-2000) 1000 7 (mkDate 2024 5 2) ]%string
           (Risk.mkEntry "Daily" (-2000) 1000 3 (mkDate 2024 5 2))%string).
  - intros w Hw. simpl in Hw.
    destruct Hw as [<- | [<- | [<- | []]]]; eexists; reflexivity.
  - reflexivity.
  - left. reflexivity.
  - right. left. reflexivity.
  - lia.
  - left. reflexivity.
Defined.

(** ** More on the allocation pass *)

Section SourceFacts.
Import Transfers Pass.

Lemma drained_refl s : 0 <= available s -> drained s s.
Proof. unfold drained. intros. repeat split; lia. Qed.

Lemma drained_all_refl ss :
  Forall (fun s => 0 <= available s) ss -> Forall2 drained ss ss.
Proof.
  induction 1; constructor; auto using drained_refl.
Qed.

Lemma drained_trans ss1 ss2 :
  Forall2 drained ss1 ss2 ->
  forall ss3, Forall2 drained ss2 ss3 -> Forall2 drained ss1 ss3.
Proof.
  induction 1 as [|s1 s2 l1 l2 H12 _ IH]; intros ss3 H23;
    inversion H23; subst; constructor.
  - unfold drained in *. repeat split; try lia; intuition congruence.
  - now apply IH.
Qed.

Lemma drained_nonneg ss ss' :
  Forall2 drained ss ss' -> Forall (fun s => 0 <= available s) ss'.
Proof.
  induction 1 as [|s s' l l' H _ IH]; constructor; [|exact IH].
  unfold drained in H. lia.
Qed.

Lemma draw_drained d ss :
  Forall (fun s => 0 <= available s) ss ->
  forall remaining, Forall2 drained ss (fst (draw remaining d ss)).
Proof.
  induction 1 as [|s rest Hs Hrest IH]; intros remaining; simpl;
    [constructor|].
  destruct (remaining <=? 0).
  { simpl. constructor; [now apply drained_refl|].
    now apply drained_all_refl. }
  destruct (available s <=? 0) eqn:Ha.
  { specialize (IH remaining). destruct (draw remaining d rest).
    simpl in *. constructor; [now apply drained_refl | exact IH]. }
  destruct (Z.min remaining (available s) <=? 0) eqn:Hm.
  { specialize (IH remaining). destruct (draw remaining d rest).
    simpl in *. constructor; [now apply drained_refl | exact IH]. }
  specialize (IH (remaining - Z.min remaining (available s))).
  destruct (draw _ d rest). simpl in *. constructor; [|exact IH].
  unfold drained. simpl. to_prop. repeat split; lia.
Qed.

Lemma execute_drained pairs :
  forall ss,
    Forall (fun s => 0 <= available s) ss ->
    Forall2 drained ss (fst (execute pairs ss)).
Proof.
  induction pairs as [|[alloc d] pairs IH]; intros ss Hss; simpl.
  - now apply drained_all_refl.
  - destruct (alloc <=? 0); [now apply IH|].
    pose proof (draw_drained d ss Hss alloc) as H1.
    destruct (draw alloc d ss) as [ss1 ms1]. simpl in H1.
    pose proof (IH ss1 (drained_nonneg _ _ H1)) as H2.
    destruct (execute pairs ss1) as [ss2 ms2]. simpl in *.
    eapply drained_trans; eauto.
Qed.

Lemma process_group_drained ss dd g ss' ms us :
  Forall (fun s => 0 <= available s) ss ->
  process_group ss dd g = (ss', ms, us) ->
  Forall2 drained ss ss'.
Proof.
  intros Hss. unfold process_group.
  destruct (_ || _); [intros [= <- <- <-]; now apply drained_all_refl|].
  destruct (_ <? _); [intros [= <- <- <-]; now apply drained_all_refl|].
  pose proof (execute_drained
                (combine (allocate g (Z.min (available_pool ss)
                                        (total_need g)) (total_need g)) g)
                ss Hss) as H.
  destruct (execute _ ss) as [ss1 ms1]. simpl in H.
  intros [= <- <- <-]. exact H.
Qed.

Lemma total_need_positive g :
  Forall (fun d => 0 < need d) g -> total_need g = sum_Z (map need g).
Proof.
  induction 1 as [|d g Hd _ IH]; [reflexivity|].
  rewrite total_need_cons, IH. unfold sum_Z. simpl. lia.
Qed.

Lemma total_need_nonempty g :
  Forall (fun d => 0 < need d) g -> g <> [] -> 0 < total_need g.
Proof.
  intros Hpos Hne. destruct Hpos as [|d g Hd _]; [congruence|].
  rewrite total_need_cons. pose proof (total_need_nonneg g). lia.
Qed.

(** The three ways a pass over a group of positive needs can go. *)
Lemma process_group_outcome ss dd g ss' ms us :
  Forall (fun d => 0 < need d) g ->
  process_group ss dd g = (ss', ms, us) ->
  (g = [] /\ ss' = ss /\ ms = [] /\ us = [])
  \/ (0 < total_need g /\ available_pool ss < total_need g
      /\ ss' = ss /\ ms = []
      /\ us = [mkUncovered dd (total_need g) (available_pool ss) g])
  \/ (0 < total_need g /\ total_need g <= available_pool ss
      /\ us = []
      /\ withdrawals ss ms ss' /\ covered_by g ms
      /\ sum_Z (map amount ms) = total_need g
      /\ available_pool ss' = available_pool ss - total_need g).
Proof.
  intros Hpos Heq. destruct g as [|d g].
  - left. rewrite process_group_idle in Heq by reflexivity.
    injection Heq as <- <- <-. auto.
  - right. pose proof (total_need_nonempty _ Hpos ltac:(discriminate)) as Ht.
    destruct (Z_lt_le_dec (available_pool ss) (total_need (d :: g)))
      as [Hs | Hs].
    + left. rewrite process_group_short in Heq by assumption.
      injection Heq as <- <- <-. auto.
    + right. rewrite process_group_covered in Heq by assumption.
      destruct (execute_spec _ Hpos _ Hs)
        as (ss1 & ms1 & Hex & Hw & Hcov & _ & Hsum & Hpool).
      rewrite Hex in Heq. injection Heq as <- <- <-. auto 10.
Qed.
End SourceFacts.

Section DeficitOrder.
Import Transfers.

Lemma deficit_ltb_asym a b :
  deficit_ltb a b = true -> deficit_ltb b a = false.
Proof.
  unfold deficit_ltb.
  destruct (date_eqb (drop_date a) (drop_date b)) eqn:E1,
    (date_eqb (drop_date b) (drop_date a)) eqn:E2;
    destruct (drop_date a), (drop_date b); date_order.
Qed.

Lemma deficit_order_trans a b c :
  not_after deficit_ltb a b -> not_after deficit_ltb b c ->
  not_after deficit_ltb a c.
Proof.
  unfold not_after, deficit_ltb.
  destruct (date_eqb (drop_date b) (drop_date a)) eqn:E1,
    (date_eqb (drop_date c) (drop_date b)) eqn:E2,
    (date_eqb (drop_date c) (drop_date a)) eqn:E3;
    destruct (drop_date a), (drop_date b), (drop_date c); date_order.
Qed.

Lemma deficit_order_date a b :
  not_after deficit_ltb a b ->
  date_leb (drop_date a) (drop_date b) = true
  /\ (drop_date a = drop_date b -> need b <= need a).
Proof.
  unfold not_after, deficit_ltb.
  destruct (date_eqb (drop_date b) (drop_date a)) eqn:E.
  - apply date_eqb_eq in E. rewrite E. intros H. split.
    + unfold date_leb. now rewrite date_ltb_irrefl.
    + intros _. to_prop. lia.
  - intros H. split; [unfold date_leb; now rewrite H|].
    intros Heq. rewrite Heq in E.
    assert (date_eqb (drop_date b) (drop_date b) = true)
      by now apply date_eqb_eq.
    congruence.
Qed.

Lemma sort_deficits_sorted l :
  StronglySorted (not_after deficit_ltb) (sort_deficits l).
Proof.
  apply Sorted_StronglySorted.
  - intros a b c. apply deficit_order_trans.
  - apply stable_sort_Sorted. apply deficit_ltb_asym.
Qed.

Lemma StronglySorted_app_inv {A : Type} (R : A -> A -> Prop) l1 l2 :
  StronglySorted R (l1 ++ l2) ->
  StronglySorted R l1 /\ StronglySorted R l2
  /\ forall a b, In a l1 -> In b l2 -> R a b.
Proof.
  induction l1 as [|x l1 IH]; simpl; intros H.
  - repeat split; [constructor | exact H | intros ? ? []].
  - inversion H as [|? ? Hs Hall]; subst.
    destruct (IH Hs) as (H1 & H2 & H12).
    apply Forall_app in Hall. destruct Hall as [Hall1 Hall2].
    repeat split; [now constructor | exact H2 |].
    intros a b [<- | Ha] Hb; [|now apply H12].
    rewrite Forall_forall in Hall2. now apply Hall2.
Qed.

Lemma span_group_rest dd l g r :
  span_group dd l = (g, r) ->
  match r with
  | [] => True
  | d :: _ => drop_date d <> dd
  end.
Proof.
  revert g r. induction l as [|d l IH]; intros g r; simpl.
  - now intros [= <- <-].
  - destruct (date_eqb (drop_date d) dd) eqn:E.
    + destruct (span_group dd l) as [g' r'].
      intros [= <- <-]. now apply (IH g' r').
    + intros [= <- <-]. intros Heq. apply date_eqb_eq in Heq. congruence.
Qed.
End DeficitOrder.

Section WholePass.
Import Transfers Pass.

(** Every pass, with the sources it starts from and the group it takes. *)
Lemma transfer_steps_whole fuel :
  forall ds ss steps,
    Forall (fun d => 0 < need d) ds ->
    Forall (fun s => 0 <= available s) ss ->
    transfer_steps fuel ds ss = Return steps ->
    linked ss steps
    /\ List.concat (map group steps) = ds
    /\ Forall (fun st =>
                 group st <> []
                 /\ Forall (fun s => 0 <= available s) (before st)
                 /\ Forall (fun d => 0 < need d) (group st)
                 /\ exists dd,
                      Forall (fun d => drop_date d = dd) (group st)
                      /\ process_group (before st) dd (group st)
                         = (after st, emitted st, recorded st)) steps.
Proof.
  induction fuel as [|fuel IH]; intros [|d l] ss steps Hpos Hss; simpl;
    try discriminate;
    try (intros [= <-]; repeat split; constructor).
  pose proof (span_group_shorter d l) as _.
  assert (Hhead : date_eqb (drop_date d) (drop_date d) = true)
    by now apply date_eqb_eq.
  rewrite Hhead.
  destruct (span_group (drop_date d) l) as [g' r] eqn:Hspan.
  apply span_group_spec in Hspan. destruct Hspan as [Hl Hdd].
  destruct (process_group ss (drop_date d) (d :: g')) as [[ss' ms] us]
    eqn:Hpg.
  destruct (transfer_steps fuel r ss') as [steps'| |] eqn:Hrest;
    simpl; try discriminate.
  intros [= <-].
  assert (Hg : Forall (fun d0 => 0 < need d0) (d :: g')
               /\ Forall (fun d0 => 0 < need d0) r).
  { inversion Hpos as [|? ? Hd Hl']; subst l.
    apply Forall_app in Hl'. destruct Hl' as [? ?].
    split; [now constructor | assumption]. }
  destruct Hg as [Hg Hr].
  pose proof (process_group_drained _ _ _ _ _ _ Hss Hpg) as Hdr.
  destruct (IH r ss' steps' Hr (drained_nonneg _ _ Hdr) Hrest)
    as (Hlink & Hcat & Hall).
  split; [simpl; auto|]. split; [simpl; now rewrite Hcat, Hl|].
  constructor; [|exact Hall]. simpl.
  split; [discriminate|]. split; [exact Hss|]. split; [exact Hg|].
  exists (drop_date d). split; [now constructor | exact Hpg].
Qed.

Lemma transfer_steps_dates fuel :
  forall ds ss steps,
    StronglySorted (not_after deficit_ltb) ds ->
    transfer_steps fuel ds ss = Return steps ->
    dates_increase steps
    /\ Forall (fun st => incl (group st) ds
                         /\ StronglySorted (not_after deficit_ltb)
                              (group st)) steps.
Proof.
  unfold dates_increase.
  induction fuel as [|fuel IH]; intros [|d l] ss steps Hsorted; simpl;
    try discriminate;
    try (intros [= <-]; repeat split; constructor).
  assert (Hhead : date_eqb (drop_date d) (drop_date d) = true)
    by now apply date_eqb_eq.
  rewrite Hhead.
  destruct (span_group (drop_date d) l) as [g' r] eqn:Hspan.
  pose proof (span_group_rest _ _ _ _ Hspan) as Hnext.
  apply span_group_spec in Hspan. destruct Hspan as [Hl Hdd].
  destruct (process_group ss (drop_date d) (d :: g')) as [[ss' ms] us].
  destruct (transfer_steps fuel r ss') as [steps'| |] eqn:Hrest;
    simpl; try discriminate.
  intros [= <-]. subst l.
  change (d :: g' ++ r) with ((d :: g') ++ r) in Hsorted.
  destruct (StronglySorted_app_inv _ _ _ Hsorted) as (Hsg & Hsr & Hgr).
  destruct (IH r ss' steps' Hsr Hrest) as (Hinc & Hall).
  assert (Hlater : forall d2, In d2 r ->
                     date_ltb (drop_date d) (drop_date d2) = true).
  { intros d2 Hd2. destruct r as [|d1 r1]; [destruct Hd2|].
    assert (H1 : date_ltb (drop_date d) (drop_date d1) = true).
    { destruct (deficit_order_date d d1 (Hgr d d1 (or_introl eq_refl)
                                            (or_introl eq_refl))) as [Hle _].
      destruct (date_ltb (drop_date d) (drop_date d1)) eqn:E;
        [reflexivity|].
      exfalso. apply Hnext.
      destruct (drop_date d), (drop_date d1).
      unfold date_leb, date_ltb in *. simpl in *. to_prop.
      f_equal; lia. }
    destruct Hd2 as [<- | Hd2]; [exact H1|].
    inversion Hsr as [|? ? _ Hall1]; subst.
    rewrite Forall_forall in Hall1.
    destruct (deficit_order_date d1 d2 (Hall1 d2 Hd2)) as [Hle _].
    apply (date_ltb_leb_trans _ _ _ H1 Hle). }
  split.
  - constructor; [exact Hinc|].
    rewrite Forall_forall in Hall |- *. intros st Hst. simpl.
    intros d1 d2 Hd1 Hd2.
    assert (E1 : drop_date d1 = drop_date d).
    { destruct Hd1 as [<- | Hd1]; [reflexivity|].
      rewrite Forall_forall in Hdd. now apply Hdd. }
    rewrite E1. apply Hlater.
    destruct (Hall st Hst) as [Hincl _]. now apply Hincl.
  - constructor.
    + simpl. split; [|exact Hsg].
      intros x Hx. change (In x ((d :: g') ++ r)).
      apply in_or_app. now left.
    + eapply Forall_impl; [|exact Hall].
      intros st [Hincl Hs]. split; [|exact Hs].
      intros x Hx. change (In x ((d :: g') ++ r)).
      apply in_or_app. right. now apply Hincl.
Qed.

Lemma classify_sources today cutoff accounts occurrences :
  Forall (fun s => 0 < available s)
    (fst (classify today cutoff accounts occurrences)).
Proof.
  induction accounts as [|a rest IH]; simpl; [constructor|].
  destruct (classify today cutoff rest occurrences) as [ss ds].
  destruct (negb (is_cash_account a)); [exact IH|].
  destruct (projection_of occurrences cutoff a) as [proj drop].
  destruct (0 <? proj) eqn:E1; [|destruct (proj <? 0); exact IH].
  simpl. constructor; [simpl; to_prop; lia | exact IH].
Qed.

Lemma sorted_entries_sources today cutoff accounts occurrences ss ds :
  sorted_entries today cutoff accounts occurrences = (ss, ds) ->
  Forall (fun s => 0 < available s) ss
  /\ StronglySorted (not_after deficit_ltb) ds
  /\ Sorted (fun a b => available b <= available a) ss
  /\ Permutation ss (fst (classify today cutoff accounts occurrences))
  /\ Permutation ds (snd (classify today cutoff accounts occurrences)).
Proof.
  unfold sorted_entries.
  pose proof (classify_sources today cutoff accounts occurrences) as Hs.
  destruct (classify today cutoff accounts occurrences) as [ss0 ds0].
  intros [= <- <-]. simpl in *.
  split; [now apply stable_sort_Forall|].
  split; [apply sort_deficits_sorted|].
  split.
  - unfold sort_surpluses.
    eapply Sorted_weaken; [|apply stable_sort_Sorted].
    + unfold not_after. intros a b H. to_prop. lia.
    + intros a b H. to_prop. lia.
  - split; apply stable_sort_perm.
Qed.
End WholePass.

Section PassTheorems.
Import Transfers Pass.

Variable today : date.
Variable accounts : list account.
Variable occurrences : dict (list occurrence).

Lemma allocation_steps_start w ws cutoff steps :
  add_days today (max_window w ws) = Return cutoff ->
  allocation_steps today accounts occurrences (w :: ws) = Return steps ->
  exists ss ds,
    sorted_entries today cutoff accounts occurrences = (ss, ds)
    /\ transfer_steps (List.length ds) ds ss = Return steps.
Proof.
  unfold allocation_steps. intros ->. simpl.
  destruct (sorted_entries today cutoff accounts occurrences) as [ss ds].
  intros H. exists ss, ds. auto.
Qed.

Lemma allocation_steps_run windows steps :
  allocation_steps today accounts occurrences windows = Return steps ->
  steps = []
  \/ exists cutoff ss ds,
       sorted_entries today cutoff accounts occurrences = (ss, ds)
       /\ transfer_steps (List.length ds) ds ss = Return steps.
Proof.
  destruct windows as [|w ws]; [intros [= <-]; now left|].
  intros H. right.
  assert (exists cutoff, add_days today (max_window w ws) = Return cutoff)
    as [cutoff Hc].
  { unfold allocation_steps in H.
    destruct (add_days today (max_window w ws)) as [c| |];
      [eexists; reflexivity | discriminate | discriminate]. }
  exists cutoff. eapply allocation_steps_start; eauto.
Qed.

Lemma sorted_entries_ready cutoff ss ds :
  sorted_entries today cutoff accounts occurrences = (ss, ds) ->
  Forall (fun d => 0 < need d) ds
  /\ Forall (fun s => 0 <= available s) ss.
Proof.
  intros E. destruct (sorted_entries_spec _ _ _ _ _ _ E) as [_ Hd].
  destruct (sorted_entries_sources _ _ _ _ _ _ E) as [Hs _].
  split.
  - eapply Forall_impl; [|exact Hd]. intros d [? _]. assumption.
  - eapply Forall_impl; [|exact Hs]. intros s ?. simpl in *. lia.
Qed.

(** What holds of every pass of [compute_transfers]. *)
Lemma allocation_steps_each windows steps st :
  allocation_steps today accounts occurrences windows = Return steps ->
  In st steps ->
  group st <> []
  /\ Forall (fun s => 0 <= available s) (before st)
  /\ Forall (fun d => 0 < need d) (group st)
  /\ exists dd,
       Forall (fun d => drop_date d = dd) (group st)
       /\ process_group (before st) dd (group st)
          = (after st, emitted st, recorded st).
Proof.
  intros Hsteps Hin.
  destruct (allocation_steps_run _ _ Hsteps)
    as [-> | (cutoff & ss & ds & E & Hrun)]; [destruct Hin|].
  destruct (sorted_entries_ready _ _ _ E) as [Hpos Hss].
  destruct (transfer_steps_whole _ _ _ _ Hpos Hss Hrun) as (_ & _ & Hall).
  rewrite Forall_forall in Hall. now apply Hall.
Qed.

Lemma available_pool_perm ss ss' :
  Permutation ss ss' -> available_pool ss = available_pool ss'.
Proof.
  induction 1 as [|s l l' _ IH|s1 s2 l|l1 l2 l3 _ IH1 _ IH2];
    rewrite ?available_pool_cons; lia.
Qed.

Lemma linked_moved ss steps :
  linked ss steps ->
  Forall (fun st =>
            available_pool (after st)
            = available_pool (before st)
              - sum_Z (map amount (emitted st))) steps ->
  sum_Z (map amount (flat_map emitted steps)) <= available_pool ss.
Proof.
  intros Hl Hall. revert ss Hl.
  induction Hall as [|st steps Hst _ IH]; intros ss Hl; simpl.
  - apply available_pool_nonneg.
  - destruct Hl as [<- Hl]. specialize (IH _ Hl).
    rewrite map_app, sum_Z_app. lia.
Qed.

Lemma group_needs_descend dd g :
  Forall (fun d => drop_date d = dd) g ->
  StronglySorted (not_after deficit_ltb) g ->
  Sorted (fun a b => need b <= need a) g.
Proof.
  intros Hdd Hs. apply StronglySorted_Sorted in Hs.
  induction Hs as [|d g Hs IH Hhd]; [constructor|].
  inversion Hdd as [|? ? Hd Hg]; subst.
  constructor; [now apply IH|].
  destruct Hhd as [|d' g' Hrel]; constructor.
  inversion Hg; subst.
  destruct (deficit_order_date _ _ Hrel) as [_ Hneed].
  apply Hneed. congruence.
Qed.
End PassTheorems.

(** X16: in every pass each source keeps its account, never holds more
    than before and never less than zero, and the pool shrinks by exactly
    the amounts of the moves emitted. *)
Theorem sources_only_decrease (today : date) (accounts : list account)
    (occurrences : dict (list occurrence)) (windows : list Z)
    (steps : list Transfers.step) (st : Transfers.step) :
  Transfers.allocation_steps today accounts occurrences windows
  = Return steps ->
  In st steps ->
  Forall2 Pass.drained (Transfers.before st) (Transfers.after st)
  /\ Transfers.available_pool (Transfers.after st)
     = Transfers.available_pool (Transfers.before st)
       - sum_Z (map Transfers.amount (Transfers.emitted st)).
Proof.
  intros Hsteps Hin.
  destruct (allocation_steps_each _ _ _ _ _ _ Hsteps Hin)
    as (_ & Hss & Hpos & dd & _ & Hpg).
  split; [eapply process_group_drained; eauto|].
  destruct (process_group_outcome _ _ _ _ _ _ Hpos Hpg)
    as [(_ & -> & -> & _) | [(_ & _ & -> & -> & _)
                            | (_ & _ & _ & _ & _ & Hsum & Hpool)]];
    try (unfold sum_Z; simpl; lia).
  rewrite Hsum. exact Hpool.
Qed.

Lemma sources_only_decrease_witness :
  let dd := mkDate 2024 5 2 in
  let st :=
    Transfers.mkStep
      [ Transfers.mkSurplus "b" "B" 20000 ]
      [ Transfers.mkDeficit "a" "A" 5000 dd ]
      [ Transfers.mkSurplus "b" "B" 15000 ]
      [ Transfers.mkMove "B" "A" 5000 dd ]
      [] in
  Forall2 Pass.drained (Transfers.before st) (Transfers.after st)
  /\ Transfers.available_pool (Transfers.after st)
     = Transfers.available_pool (Transfers.before st)
       - sum_Z (map Transfers.amount (Transfers.emitted st)).
Proof.
  intros dd st.
  apply (sources_only_decrease (mkDate 2024 5 1)
           [ mkAccount "a" (Some "A") None None (Some 10000);
             mkAccount "b" (Some "B") None None (Some 20000) ]%string
           [ ("a", [ (dd, -15000) ]) ]%string
           [7] [st] st).
  - reflexivity.
  - left. reflexivity.
Defined.



(** X18: every group is made of deficits of one drop date, is not empty
    and lists the largest need first; from one pass to the next the drop
    date strictly increases, so each drop date is handled in one pass. *)
Theorem groups_by_drop_date (today : date) (accounts : list account)
    (occurrences : dict (list occurrence)) (windows : list Z)
    (steps : list Transfers.step) :
  Transfers.allocation_steps today accounts occurrences windows
  = Return steps ->
  Pass.dates_increase steps
  /\ Forall (fun st => Pass.one_date_group (Transfers.group st)) steps.
Proof.
  intros Hsteps.
  destruct (allocation_steps_run _ _ _ _ _ Hsteps)
    as [-> | (cutoff & ss & ds & E & Hrun)];
    [split; constructor|].
  destruct (sorted_entries_sources _ _ _ _ _ _ E) as (_ & Hsorted & _).
  destruct (transfer_steps_dates _ _ _ _ Hsorted Hrun) as [Hinc Hgroups].
  split; [exact Hinc|].
  rewrite Forall_forall in *. intros st Hst.
  destruct (Hgroups st Hst) as [_ Hs].
  destruct (allocation_steps_each _ _ _ _ _ _ Hsteps Hst)
    as (Hne & _ & _ & dd & Hdd & _).
  split; [exact Hne|]. split.
  - rewrite Forall_forall in Hdd. intros d1 d2 H1 H2.
    rewrite (Hdd d1 H1), (Hdd d2 H2). reflexivity.
  - eapply group_needs_descend; eauto.
Qed.

Lemma groups_by_drop_date_witness :
  let dd := mkDate 2024 5 2 in
  let g :=
    [ Transfers.mkDeficit "y" "Y" 6000 dd;
      Transfers.mkDeficit "x" "X" 4000 dd ]%string in
  let steps :=
    [ Transfers.mkStep
        [ Transfers.mkSurplus "z" "Z" 9000 ] g
        [ Transfers.mkSurplus "z" "Z" 9000 ]
        [] [ Transfers.mkUncovered dd 10000 9000 g ] ] in
  Pass.dates_increase steps
  /\ Forall (fun st => Pass.one_date_group (Transfers.group st)) steps.
Proof.
  intros dd g steps.
  apply (groups_by_drop_date (mkDate 2024 5 1)
           [ mkAccount "x" (Some "X") None None (Some 0);
             mkAccount "y" (Some "Y") None None (Some 0);
             mkAccount "z" (Some "Z") None None (Some 9000) ]%string
           [ ("x", [ (dd, -4000) ]); ("y", [ (dd, -6000) ]) ]%string
           [7] steps).
  reflexivity.
Defined.

Section ResultTheorems.
Import Transfers Pass.

Variable today : date.
Variable accounts : list account.
Variable occurrences : dict (list occurrence).

Lemma recorded_short windows steps st u :
  allocation_steps today accounts occurrences windows = Return steps ->
  In st steps -> In u (recorded st) ->
  short_record u /\ u_accounts u = group st /\ emitted st = []
  /\ recorded st = [u].
Proof.
  intros Hsteps Hin Hu.
  destruct (allocation_steps_each _ _ _ _ _ _ Hsteps Hin)
    as (Hne & Hss & Hpos & dd & Hdd & Hpg).
  destruct (process_group_outcome _ _ _ _ _ _ Hpos Hpg)
    as [(_ & _ & _ & Hr) | [(Ht & Hp & _ & Hm & Hr)
                           | (_ & _ & Hr & _)]];
    rewrite Hr in Hu; [destruct Hu | | destruct Hu].
  destruct Hu as [<- | []].
  split; [|rewrite Hr; auto].
  unfold short_record. simpl.
  pose proof (available_pool_nonneg (before st)).
  split; [lia|]. split; [exact Hne|]. split.
  - rewrite Forall_forall in *. intros d Hd. split; auto.
  - now apply total_need_positive.
Qed.

Lemma classify_app accounts1 accounts2 cutoff :
  classify today cutoff (accounts1 ++ accounts2) occurrences
  = (fst (classify today cutoff accounts1 occurrences)
     ++ fst (classify today cutoff accounts2 occurrences),
     snd (classify today cutoff accounts1 occurrences)
     ++ snd (classify today cutoff accounts2 occurrences)).
Proof.
  induction accounts1 as [|a rest IH]; simpl.
  - now destruct (classify today cutoff accounts2 occurrences).
  - rewrite IH.
    destruct (classify today cutoff rest occurrences) as [ss ds]. simpl.
    destruct (negb (is_cash_account a)); [reflexivity|].
    destruct (projection_of occurrences cutoff a) as [proj drop].
    destruct (0 <? proj); [reflexivity|].
    destruct (proj <? 0); reflexivity.
Qed.

Lemma classify_skip a rest cutoff :
  is_cash_account a = false ->
  classify today cutoff (a :: rest) occurrences
  = classify today cutoff rest occurrences.
Proof.
  intros H. simpl. rewrite H. simpl.
  now destruct (classify today cutoff rest occurrences).
Qed.
End ResultTheorems.

(** X19: every uncovered group returned is a non-empty group of deficits
    of its drop date, its need is the sum of their (positive) needs, and
    the pool recorded with it is not negative and strictly less than that
    need. *)
Theorem uncovered_groups_are_short (today : date) (accounts : list account)
    (occurrences : dict (list occurrence)) (windows : list Z)
    (moves : list Transfers.move)
    (uncovered : list Transfers.uncovered_group) :
  Transfers.compute_transfers today accounts occurrences windows
  = Return (moves, uncovered) ->
  Forall Pass.short_record uncovered.
Proof.
  rewrite compute_transfers_steps.
  destruct (Transfers.allocation_steps today accounts occurrences windows)
    as [steps| |] eqn:Hsteps; simpl; try discriminate.
  intros [= <- <-]. apply Forall_forall. intros u Hu.
  apply in_flat_map in Hu. destruct Hu as (st & Hst & Hu).
  now destruct (recorded_short _ _ _ _ _ _ _ Hsteps Hst Hu).
Qed.

Lemma uncovered_groups_are_short_witness :
  let dd := mkDate 2024 5 2 in
  Forall Pass.short_record
    [ Transfers.mkUncovered dd 10000 9000
        [ Transfers.mkDeficit "y" "Y" 6000 dd;
          Transfers.mkDeficit "x" "X" 4000 dd ]%string ].
Proof.
  intros dd.
  apply (uncovered_groups_are_short (mkDate 2024 5 1)
           [ mkAccount "x" (Some "X") None None (Some 0);
             mkAccount "y" (Some "Y") None None (Some 0);
             mkAccount "z" (Some "Z") None None (Some 9000) ]%string
           [ ("x", [ (dd, -4000) ]); ("y", [ (dd, -6000) ]) ]%string
           [7] []).
  reflexivity.
Defined.

(** X20: the amounts of all moves returned never add up to more than the
    surplus there was to start with: the sum of the strictly positive
    projections of the cash accounts at the longest window. *)
Theorem moves_within_surplus (today cutoff : date)
    (accounts : list account) (occurrences : dict (list occurrence))
    (w : Z) (ws : list Z) (moves : list Transfers.move)
    (uncovered : list Transfers.uncovered_group) :
  add_days today (Transfers.max_window w ws) = Return cutoff ->
  Transfers.compute_transfers today accounts occurrences (w :: ws)
  = Return (moves, uncovered) ->
  sum_Z (map Transfers.amount moves)
  <= Transfers.available_pool
       (fst (Transfers.classify today cutoff accounts occurrences)).
Proof.
  intros Hc. rewrite compute_transfers_steps.
  destruct (Transfers.allocation_steps today accounts occurrences (w :: ws))
    as [steps| |] eqn:Hsteps; simpl; try discriminate.
  intros [= <- <-].
  destruct (allocation_steps_start _ _ _ _ _ _ _ Hc Hsteps)
    as (ss & ds & E & Hrun).
  destruct (sorted_entries_ready _ _ _ _ _ _ E) as [Hpos Hss].
  destruct (transfer_steps_whole _ _ _ _ Hpos Hss Hrun) as (Hl & _ & Hall).
  destruct (sorted_entries_sources _ _ _ _ _ _ E) as (_ & _ & _ & P1 & _).
  rewrite <- (available_pool_perm _ _ P1).
  apply linked_moved; [exact Hl|].
  eapply Forall_impl; [|exact Hall].
  intros st (_ & _ & Hp & dd & _ & Hpg).
  destruct (process_group_outcome _ _ _ _ _ _ Hp Hpg)
    as [(_ & -> & -> & _) | [(_ & _ & -> & -> & _)
                            | (_ & _ & _ & _ & _ & Hsum & Hpool)]];
    try (unfold sum_Z; simpl; lia).
  rewrite Hsum. exact Hpool.
Qed.

Lemma moves_within_surplus_witness :
  sum_Z (map Transfers.amount
           [ Transfers.mkMove "Z" "Y" 6000 (mkDate 2024 5 2);
             Transfers.mkMove "Z" "X" 1000 (mkDate 2024 5 2);
             Transfers.mkMove "W" "X" 3000 (mkDate 2024 5 2) ])
  <= Transfers.available_pool
       (fst (Transfers.classify (mkDate 2024 5 1) (mkDate 2024 5 8)
               [ mkAccount "x" (Some "X") None None (Some 0);
                 mkAccount "y" (Some "Y") None None (Some 0);
                 mkAccount "z" (Some "Z") None None (Some 7000);
                 mkAccount "w" (Some "W") None None (Some 5000) ]%string
               [ ("x", [ (mkDate 2024 5 2, -4000) ]);
                 ("y", [ (mkDate 2024 5 2, -6000) ]) ]%string)).
Proof.
  apply (moves_within_surplus (mkDate 2024 5 1) (mkDate 2024 5 8)
           [ mkAccount "x" (Some "X") None None (Some 0);
             mkAccount "y" (Some "Y") None None (Some 0);
             mkAccount "z" (Some "Z") None None (Some 7000);
             mkAccount "w" (Some "W") None None (Some 5000) ]%string
           [ ("x", [ (mkDate 2024 5 2, -4000) ]);
             ("y", [ (mkDate 2024 5 2, -6000) ]) ]%string
           7 [] _ []).
  - reflexivity.
  - reflexivity.
Defined.



(** X22: an account that is not a cash account (a debt or liability type,
    or off budget) changes neither the risk map nor the transfers: both
    are what they are without it. *)
Theorem non_cash_accounts_ignored (today : date)
    (before after : list account) (a : account)
    (occurrences : dict (list occurrence)) (windows : list Z) :
  is_cash_account a = false ->
  Risk.compute_risk today (before ++ a :: after) occurrences windows
  = Risk.compute_risk today (before ++ after) occurrences windows
  /\ Transfers.compute_transfers today (before ++ a :: after) occurrences
       windows
     = Transfers.compute_transfers today (before ++ after) occurrences
         windows.
Proof.
  intros Hcash. split.
  - unfold Risk.compute_risk. rewrite !risk_loop_app.
    destruct (Risk.risk_loop today before occurrences _ _) as [r| |];
      unfold bind; try reflexivity.
    simpl. rewrite Hcash. reflexivity.
  - unfold Transfers.compute_transfers.
    destruct windows as [|w ws]; [reflexivity|].
    destruct (add_days today (Transfers.max_window w ws)) as [cutoff| |];
      simpl; try reflexivity.
    unfold Transfers.sorted_entries.
    rewrite !classify_app, (classify_skip today occurrences a after cutoff Hcash).
    reflexivity.
Qed.

Lemma non_cash_accounts_ignored_witness :
  let card :=
    mkAccount "c" (Some "Card"%string) (Some "creditCard"%string)
      (Some true) (Some (-80000)) in
  Risk.compute_risk (mkDate 2024 5 1) ([] ++ card :: [])
    [ ("c"%string, [ (mkDate 2024 5 2, -100) ]) ] [7]
  = Risk.compute_risk (mkDate 2024 5 1) ([] ++ [])
      [ ("c"%string, [ (mkDate 2024 5 2, -100) ]) ] [7]
  /\ Transfers.compute_transfers (mkDate 2024 5 1) ([] ++ card :: [])
       [ ("c"%string, [ (mkDate 2024 5 2, -100) ]) ] [7]
     = Transfers.compute_transfers (mkDate 2024 5 1) ([] ++ [])
         [ ("c"%string, [ (mkDate 2024 5 2, -100) ]) ] [7].
Proof.
  intros card.
  apply (non_cash_accounts_ignored (mkDate 2024 5 1) [] [] card
           [ ("c"%string, [ (mkDate 2024 5 2, -100) ]) ] [7]).
  reflexivity.
Defined.

(** X23: for a group whose positive total need is within the pool, the
    proportional phase already allocates to every member exactly its need,
    and the remainder loop changes nothing. *)
Theorem allocations_are_needs (g : list Transfers.deficit) (pool : Z) :
  0 < Transfers.total_need g ->
  Transfers.total_need g <= pool ->
  Transfers.allocate g (Z.min pool (Transfers.total_need g))
    (Transfers.total_need g)
  = map Transfers.need g
  /\ map (fun d =>
            Z.min (Transfers.need d)
              (Z.min pool (Transfers.total_need g) * Transfers.need d
               / Transfers.total_need g)) g
     = map Transfers.need g.
Proof.
  intros Ht Hp. split; [now apply allocate_full|].
  rewrite Z.min_r by lia. now apply proportional_full.
Qed.

Lemma allocations_are_needs_witness :
  let dd := mkDate 2024 5 2 in
  let g :=
    [ Transfers.mkDeficit "y" "Y" 6001 dd;
      Transfers.mkDeficit "x" "X" 3999 dd ]%string in
  Transfers.allocate g (Z.min 12000 (Transfers.total_need g))
    (Transfers.total_need g)
  = map Transfers.need g
  /\ map (fun d =>
            Z.min (Transfers.need d)
              (Z.min 12000 (Transfers.total_need g) * Transfers.need d
               / Transfers.total_need g)) g
     = map Transfers.need g.
Proof.
  intros dd g.
  apply (allocations_are_needs g 12000).
  - reflexivity.
  - vm_compute. discriminate.
Defined.

(** X24: a schedule that is not passed over and whose date fields are not
    a date of the calendar makes [build_occurrences] raise [ValueError],
    once the schedules before it have been collected without error. *)
Theorem build_occurrences_bad_date (today : date)
    (before after : list Schedule.scheduled_txn)
    (txn : Schedule.scheduled_txn) (max_window : Z)
    (m : dict (list occurrence)) (y mo d : Z) :
  Schedule.collect today before max_window [] = Return m ->
  ~ Built.skipped txn ->
  Schedule.date_next txn = (y, mo, d) ->
  check_date_fields y mo d = false ->
  Schedule.build_occurrences today (before ++ txn :: after) max_window
  = Raise ValueError.
Proof.
  intros Hm Hskip Hdate Hcheck. unfold Schedule.build_occurrences.
  rewrite collect_app, Hm. unfold bind at 2. simpl.
  unfold Built.skipped in Hskip.
  destruct (Schedule.account_id txn) as [k|]; [|tauto].
  destruct (String.eqb_spec k "") as [-> | _]; [tauto|].
  destruct (Schedule.txn_amount txn =? 0) eqn:Hz;
    [to_prop; tauto|].
  rewrite Hdate. unfold new_date. rewrite Hcheck. reflexivity.
Qed.

Lemma build_occurrences_bad_date_witness :
  Schedule.build_occurrences (mkDate 2024 5 1)
    ([] ++ Schedule.mkTxn (Some "acct"%string) (Some (-500)) []
             (2024, 2, 30) (Some "monthly"%string) :: [])
    7
  = Raise ValueError.
Proof.
  apply (build_occurrences_bad_date (mkDate 2024 5 1) [] []
           (Schedule.mkTxn (Some "acct"%string) (Some (-500)) []
              (2024, 2, 30) (Some "monthly"%string))
           7 [] 2024 2 30).
  - reflexivity.
  - intros [H | [H | H]]; discriminate H.
  - reflexivity.
  - reflexivity.
Defined.
